(** * Clanker Smash Bankr: the game core of [src/App.tsx]

    The React component [App] keeps the whole game in [useState] cells and
    mutates them from five places: the [startGame] handler, three interval
    effects (game timer, TV spawning, auto-hide), the [smashTV] handler with
    its two [setTimeout] callbacks, and the high-score effect.  This file
    embeds those pieces as pure functions on a record of the state cells and
    proves the properties of the core state machine.

    Conventions.
    - JavaScript numbers that only ever hold small integers (score, combo,
      timeLeft, ids) are [Z].
    - [Math.random()] is an explicit argument: a rational in [0,1).
    - An updater passed to a state setter runs once per call of the setter,
      and every event is followed by a commit before the next event.
    - A [setTimeout] that has been scheduled and has not yet fired is an
      entry of the [timeouts] cell; delays are recorded but firing order is
      left to the environment.
    - [localStorage] is the log of the values written by [setItem]. *)

From Stdlib Require Import ZArith List Bool Lia QArith Qround Sorted.
Import ListNotations.
Local Open Scope Z_scope.

(** ** Data model *)

(** [interface TVState] *)
Record TVState := mkTV {
  id : Z;
  isVisible : bool;
  isSmashed : bool;
  showScore : bool
}.

(** [interface Sparkle]; coordinates are screen positions. *)
Module Sparkle.
Record t := mk { id : Z; x : Q; y : Q }.
End Sparkle.

(** The part of [getBoundingClientRect()] that [smashTV] reads. *)
Record Rect := mkRect { left : Q; top : Q; width : Q; height : Q }.

(** ['idle' | 'playing' | 'ended'] *)
Inductive GameState := idle | playing | ended.

(** The two callbacks that [smashTV] hands to [setTimeout]. *)
Inductive Callback :=
| RemoveSparkle (sparkleId : Z)
| HideTV (tvId : Z).

(** The state cells of [App], the [sparkleIdRef] counter, the timeouts that
    are scheduled and not yet fired (delay in ms, callback), and the log of
    [localStorage.setItem('clanker-highscore', _)] calls. *)
Record State := mkState {
  score : Z;
  highScore : Z;
  timeLeft : Z;
  gameState : GameState;
  tvs : list TVState;
  sparkles : list Sparkle.t;
  combo : Z;
  missedCount : Z;
  sparkleIdRef : Z;
  timeouts : list (Z * Callback);
  localStorage : list Z
}.

Definition GameState_eqb (a b : GameState) : bool :=
  match a, b with
  | idle, idle | playing, playing | ended, ended => true
  | _, _ => false
  end.

(** [Array.from({ length: 9 }, (_, i) => ({ id: i, isVisible: false,
    isSmashed: false, showScore: false }))] *)
Definition freshTvs : list TVState :=
  map (fun i => mkTV (Z.of_nat i) false false false) (seq 0 9).

(** The state at mount; [saved] is what [localStorage.getItem] holds. *)
Definition initial (saved : option Z) : State :=
  {| score := 0;
     highScore := match saved with Some v => v | None => 0 end;
     timeLeft := 30;
     gameState := idle;
     tvs := freshTvs;
     sparkles := [];
     combo := 0;
     missedCount := 0;
     sparkleIdRef := 0;
     timeouts := [];
     localStorage := [] |}.

(** ** Operations *)

(** [startGame] *)
Definition startGame (s : State) : State :=
  {| score := 0;
     highScore := highScore s;
     timeLeft := 30;
     gameState := playing;
     tvs := freshTvs;
     sparkles := sparkles s;
     combo := 0;
     missedCount := 0;
     sparkleIdRef := sparkleIdRef s;
     timeouts := timeouts s;
     localStorage := localStorage s |}.

(** The game-timer effect: the interval exists only while the rendered
    [gameState] is ['playing']; its callback is the [setTimeLeft] updater. *)
Definition gameTimer (s : State) : State :=
  match gameState s with
  | playing =>
      if timeLeft s <=? 1 then
        {| score := score s; highScore := highScore s;
           timeLeft := 0; gameState := ended;
           tvs := tvs s; sparkles := sparkles s; combo := combo s;
           missedCount := missedCount s; sparkleIdRef := sparkleIdRef s;
           timeouts := timeouts s; localStorage := localStorage s |}
      else
        {| score := score s; highScore := highScore s;
           timeLeft := timeLeft s - 1; gameState := gameState s;
           tvs := tvs s; sparkles := sparkles s; combo := combo s;
           missedCount := missedCount s; sparkleIdRef := sparkleIdRef s;
           timeouts := timeouts s; localStorage := localStorage s |}
  | _ => s
  end.

(** The save-high-score effect, run after every commit. *)
Definition saveHighScore (s : State) : State :=
  match gameState s with
  | ended =>
      if highScore s <? score s then
        {| score := score s; highScore := score s;
           timeLeft := timeLeft s; gameState := gameState s;
           tvs := tvs s; sparkles := sparkles s; combo := combo s;
           missedCount := missedCount s; sparkleIdRef := sparkleIdRef s;
           timeouts := timeouts s;
           localStorage := localStorage s ++ [score s] |}
      else s
  | _ => s
  end.

Definition set_tvs (l : list TVState) (s : State) : State :=
  {| score := score s; highScore := highScore s;
     timeLeft := timeLeft s; gameState := gameState s;
     tvs := l; sparkles := sparkles s; combo := combo s;
     missedCount := missedCount s; sparkleIdRef := sparkleIdRef s;
     timeouts := timeouts s; localStorage := localStorage s |}.

(** [arr[i]] for a number [i]: [undefined] out of range. *)
Definition js_index {A} (l : list A) (i : Z) : option A :=
  if i <? 0 then None else nth_error l (Z.to_nat i).

(** [tv => !tv.isVisible && !tv.isSmashed] *)
Definition isHidden (tv : TVState) : bool :=
  negb (isVisible tv) && negb (isSmashed tv).

(** [{ ...tv, isVisible: true, isSmashed: false, showScore: false }] *)
Definition reveal (tv : TVState) : TVState :=
  mkTV (id tv) true false false.

(** The [setTvs] updater of [spawnTV], with the value [r] of
    [Math.random()].  [None] is the [TypeError] of [randomTv.id] on an
    [undefined] pick. *)
Definition spawnTV (r : Q) (prev : list TVState) : option (list TVState) :=
  let hiddenTvs := filter isHidden prev in
  if (length hiddenTvs =? 0)%nat then Some prev
  else
    match js_index hiddenTvs
            (Qfloor (r * inject_Z (Z.of_nat (length hiddenTvs)))) with
    | Some randomTv =>
        Some (map (fun tv => if id tv =? id randomTv then reveal tv else tv)
                  prev)
    | None => None
    end.

(** The spawning effect: active only while playing. *)
Definition spawner (r : Q) (s : State) : State :=
  match gameState s with
  | playing =>
      match spawnTV r (tvs s) with
      | Some l => set_tvs l s
      | None => s
      end
  | _ => s
  end.

(** [Math.random() < 0.15] *)
Definition Qltb (a b : Q) : bool :=
  (Qnum a * Zpos (Qden b) <? Qnum b * Zpos (Qden a)).

Definition escapeChance : Q := 15 # 100.

(** [tv.isVisible && !tv.isSmashed] *)
Definition isTarget (tv : TVState) : bool :=
  isVisible tv && negb (isSmashed tv).

(** [{ ...tv, isVisible: false }] *)
Definition escape (tv : TVState) : TVState :=
  mkTV (id tv) false (isSmashed tv) (showScore tv).

(** The [prev.map] of the auto-hide effect.  [rng k] is the value of the
    [k]-th call of [Math.random()] in this firing, [n] the number of calls
    made so far; the result is the new array and the number of slots that
    took the escaping branch. *)
Fixpoint checkTvs (rng : nat -> Q) (n : nat) (prev : list TVState)
  : list TVState * Z :=
  match prev with
  | [] => ([], 0)
  | tv :: rest =>
      if isTarget tv then
        if Qltb (rng n) escapeChance then
          let (newTvs, missed) := checkTvs rng (S n) rest in
          (escape tv :: newTvs, missed + 1)
        else
          let (newTvs, missed) := checkTvs rng (S n) rest in
          (tv :: newTvs, missed)
      else
        let (newTvs, missed) := checkTvs rng n rest in
        (tv :: newTvs, missed)
  end.

(** The auto-hide effect: active only while playing.  Every escaping slot
    calls [setCombo(0)] and [setMissedCount(c => c + 1)]. *)
Definition autoHide (rng : nat -> Q) (s : State) : State :=
  match gameState s with
  | playing =>
      let (newTvs, missed) := checkTvs rng 0 (tvs s) in
      {| score := score s; highScore := highScore s;
         timeLeft := timeLeft s; gameState := gameState s;
         tvs := newTvs; sparkles := sparkles s;
         combo := if missed =? 0 then combo s else 0;
         missedCount := missedCount s + missed;
         sparkleIdRef := sparkleIdRef s;
         timeouts := timeouts s; localStorage := localStorage s |}
  | _ => s
  end.

(** [{ ...t, isSmashed: true, showScore: true }] *)
Definition smash (t : TVState) : TVState :=
  mkTV (id t) (isVisible t) true true.

(** The [setTvs] updater of [smashTV]. *)
Definition smashUpdater (i : Z) (prev : list TVState) : list TVState :=
  match find (fun t => id t =? i) prev with
  | None => prev
  | Some tv =>
      if negb (isVisible tv) || isSmashed tv then prev
      else map (fun t => if id t =? i then smash t else t) prev
  end.

(** [smashTV], with the [gameState] and [combo] its closure captured at the
    render that created it. *)
Definition smashTV (gameState_r : GameState) (combo_r : Z)
    (i : Z) (rect : Rect) (s : State) : State :=
  match gameState_r with
  | playing =>
      let newCombo := combo_r + 1 in
      let points := 100 * Z.min newCombo 5 in
      let sparkleId := sparkleIdRef s in
      {| score := score s + points;
         highScore := highScore s;
         timeLeft := timeLeft s;
         gameState := gameState s;
         tvs := smashUpdater i (tvs s);
         sparkles := sparkles s ++
           [Sparkle.mk sparkleId
              (left rect + width rect / inject_Z 2)%Q
              (top rect + height rect / inject_Z 2)%Q];
         combo := newCombo;
         missedCount := missedCount s;
         sparkleIdRef := sparkleId + 1;
         timeouts := timeouts s ++
           [(500, RemoveSparkle sparkleId); (300, HideTV i)];
         localStorage := localStorage s |}
  | _ => s
  end.

(** The strike action on a committed state: the handler of the current
    render, whose closure holds the current [gameState] and [combo]. *)
Definition strike (i : Z) (rect : Rect) (s : State) : State :=
  smashTV (gameState s) (combo s) i rect s.


(** [{ ...t, isVisible: false, isSmashed: false, showScore: false }] *)
Definition conceal (t : TVState) : TVState :=
  mkTV (id t) false false false.

(** The body of a [setTimeout] callback. *)
Definition runCallback (c : Callback) (s : State) : State :=
  match c with
  | RemoveSparkle sparkleId =>
      {| score := score s; highScore := highScore s;
         timeLeft := timeLeft s; gameState := gameState s;
         tvs := tvs s;
         sparkles :=
           filter (fun sp => negb (Sparkle.id sp =? sparkleId)) (sparkles s);
         combo := combo s;
         missedCount := missedCount s; sparkleIdRef := sparkleIdRef s;
         timeouts := timeouts s; localStorage := localStorage s |}
  | HideTV i =>
      set_tvs (map (fun t => if id t =? i then conceal t else t) (tvs s)) s
  end.

Fixpoint remove_nth {A} (k : nat) (l : list A) : list A :=
  match k, l with
  | _, [] => []
  | O, _ :: r => r
  | S k', a :: r => a :: remove_nth k' r
  end.

(** The [k]-th scheduled timeout fires: it leaves the schedule and its
    callback runs. *)
Definition fireTimeout (k : nat) (s : State) : State :=
  match nth_error (timeouts s) k with
  | None => s
  | Some (_, c) =>
      runCallback c
        {| score := score s; highScore := highScore s;
           timeLeft := timeLeft s; gameState := gameState s;
           tvs := tvs s; sparkles := sparkles s; combo := combo s;
           missedCount := missedCount s; sparkleIdRef := sparkleIdRef s;
           timeouts := remove_nth k (timeouts s);
           localStorage := localStorage s |}
  end.

(** ** The event loop *)

Inductive Event :=
| Start                              (* INSERT COIN / PLAY AGAIN *)
| Tick                               (* 1000 ms game timer *)
| Spawn (r : Q)                      (* spawn interval, one random draw *)
| Escape (rng : nat -> Q)            (* 500 ms auto-hide interval *)
| Strike (i : Z) (rect : Rect)       (* onSmash(i, e) *)
| Timeout (k : nat).                 (* a scheduled timeout fires *)

Definition handle (e : Event) (s : State) : State :=
  match e with
  | Start => startGame s
  | Tick => gameTimer s
  | Spawn r => spawner r s
  | Escape rng => autoHide rng s
  | Strike i rect => strike i rect s
  | Timeout k => fireTimeout k s
  end.

(** One event, the commit, and the effects that follow it. *)
Definition step (e : Event) (s : State) : State :=
  saveHighScore (handle e s).

Definition run (evs : list Event) (s : State) : State :=
  fold_left (fun st e => step e st) evs s.

Inductive reachable : State -> Prop :=
| reach_initial saved : reachable (initial saved)
| reach_step e s : reachable s -> reachable (step e s).

(** ** Vocabulary of the specification *)

(** A slot is never struck while hidden. *)
Definition wellFormed (tv : TVState) : Prop :=
  isSmashed tv = true -> isVisible tv = true.

(** The slot invariant that every operation preserves: the nine
    identifiers stay in place and no slot is struck while hidden. *)
Definition slotsInv (l : list TVState) : Prop :=
  map id l = map id freshTvs /\ Forall wellFormed l.

(** The three slot states of the specification. *)
Inductive SlotState := hidden_unstruck | revealed_unstruck | revealed_struck.

Definition slotState (tv : TVState) : option SlotState :=
  match isVisible tv, isSmashed tv with
  | false, false => Some hidden_unstruck
  | true, false => Some revealed_unstruck
  | true, true => Some revealed_struck
  | false, true => None
  end.

(** The slot with identifier [i], as [prev.find(t => t.id === id)] sees it. *)
Definition slot (i : Z) (s : State) : option TVState :=
  find (fun t => id t =? i) (tvs s).

(** The intervals are live: the rendered phase is ['playing']. *)
Definition isPlaying (s : State) : bool := GameState_eqb (gameState s) playing.

(** A strike is valid when the game is on and the slot is revealed and
    not yet struck. *)
Definition validStrike (i : Z) (s : State) : bool :=
  isPlaying s &&
  match slot i s with
  | Some tv => isTarget tv
  | None => false
  end.

(** Number of [Math.random()] calls the auto-hide pass makes before it
    reaches position [i] of [l]. *)
Definition drawIndex (l : list TVState) (i : nat) : nat :=
  length (filter isTarget (firstn i l)).

(** Position [i] of [l] escapes in a pass whose first draw is [rng n]. *)
Definition escapesAt (rng : nat -> Q) (n : nat) (l : list TVState) (i : nat)
  : bool :=
  match nth_error l i with
  | Some tv => isTarget tv && Qltb (rng (n + drawIndex l i)%nat) escapeChance
  | None => false
  end.

Definition escapeCount (rng : nat -> Q) (n : nat) (l : list TVState) : Z :=
  Z.of_nat (length (filter (escapesAt rng n l) (seq 0 (length l)))).

(** Points of the [n]-th strike of a chain, and of a whole chain. *)
Definition strikePoints (n : Z) : Z := 100 * Z.min n 5.


Definition isStart (e : Event) : bool :=
  match e with Start => true | _ => false end.

Definition isTick (e : Event) : bool :=
  match e with Tick => true | _ => false end.

Definition isStrike (e : Event) : bool :=
  match e with Strike _ _ => true | _ => false end.

Definition isEscape (e : Event) : bool :=
  match e with Escape _ => true | _ => false end.

Definition count (p : Event -> bool) (evs : list Event) : nat :=
  length (filter p evs).

Definition noStart (evs : list Event) : bool :=
  forallb (fun e => negb (isStart e)) evs.



Definition rect0 : Rect := mkRect 0 0 0 0.

Definition lowDraw : nat -> Q := fun _ => 1 # 10.
Definition secondLow : nat -> Q :=
  fun k => if (k =? 1)%nat then 1 # 10 else 1 # 2.

(** ** The rest of the component *)

(** [Math.max(400, 1200 - (30 - timeLeft) * 30)], in ms: the part of the
    spawn delay that does not depend on [Math.random()]. *)
Definition baseInterval (timeLeft : Z) : Z :=
  Z.max 400 (1200 - (30 - timeLeft) * 30).

(** The game-over banner: [score > highScore - score && score > 0]. *)
Definition newHighScoreBanner (s : State) : bool :=
  (highScore s - score s <? score s) && (0 <? score s).

(** The game-over line "TVs Smashed": [Math.floor(score / 100)]. *)
Definition tvsSmashed (s : State) : Z := score s / 100.

(** Number of [Strike] events of a trace that [smashTV] handles, that is,
    that arrive while the phase is ['playing']. *)
Fixpoint strikesHandled (evs : list Event) (s : State) : Z :=
  match evs with
  | [] => 0
  | e :: rest =>
      (if isStrike e && isPlaying s then 1 else 0)
      + strikesHandled rest (step e s)
  end.

Definition isSpawn (e : Event) : bool :=
  match e with Spawn _ => true | _ => false end.

Definition isTimeout (e : Event) : bool :=
  match e with Timeout _ => true | _ => false end.

Definition noSpawn (evs : list Event) : bool :=
  forallb (fun e => negb (isSpawn e)) evs.

Definition noTimeout (evs : list Event) : bool :=
  forallb (fun e => negb (isTimeout e)) evs.

(** What a reversion can do to a slot: nothing, or hide it. *)
Definition settles (t t' : TVState) : Prop := t' = t \/ t' = conceal t.

(** Every scheduled timeout carries the delay its [setTimeout] call gave
    it: 500 ms for a sparkle removal, 300 ms for a reversion. *)
Definition delaysInv (s : State) : Prop :=
  Forall (fun p => match snd p with
                   | RemoveSparkle _ => fst p = 500
                   | HideTV _ => fst p = 300
                   end) (timeouts s).

(** Invariants of the sparkle list and of the struck slots. *)
Definition sparklesInv (s : State) : Prop :=
  NoDup (map Sparkle.id (sparkles s)) /\
  Forall (fun sp => Sparkle.id sp < sparkleIdRef s) (sparkles s) /\
  Forall (fun sp => In (500, RemoveSparkle (Sparkle.id sp)) (timeouts s))
         (sparkles s).

Definition struckInv (s : State) : Prop :=
  Forall (fun tv =>
            showScore tv = isSmashed tv /\
            (isSmashed tv = true -> In (300, HideTV (id tv)) (timeouts s)))
         (tvs s).

(** The counters stay in their ranges. *)
Definition countersInv (s : State) : Prop :=
  0 <= combo s /\ 0 <= score s /\ (100 | score s) /\ 0 <= missedCount s /\
  0 <= timeLeft s <= 30 /\
  (gameState s = playing -> 1 <= timeLeft s) /\
  (gameState s = ended -> timeLeft s = 0).

(** The best score in memory mirrors the storage log; [h0] is the value
    loaded at mount. *)
Definition storageInv (h0 : Z) (s : State) : Prop :=
  highScore s = last (localStorage s) h0 /\
  StronglySorted Z.lt (localStorage s) /\
  Forall (fun v => h0 < v <= highScore s) (localStorage s) /\
  h0 <= highScore s /\
  (gameState s = ended -> score s <= highScore s).

(** ** Basic facts about the effects *)

Ltac split_save :=
  unfold saveHighScore;
  match goal with
  | |- context [match gameState ?s with _ => _ end] =>
      destruct (gameState s) eqn:?; try reflexivity;
      match goal with
      | |- context [if ?h <? ?v then _ else _] =>
          destruct (h <? v) eqn:?; try reflexivity
      | _ => idtac
      end;
      try (simpl; congruence)
  end.

Lemma save_tvs s : tvs (saveHighScore s) = tvs s.
Proof. split_save. Qed.

Lemma save_score s : score (saveHighScore s) = score s.
Proof. split_save. Qed.

Lemma save_combo s : combo (saveHighScore s) = combo s.
Proof. split_save. Qed.

Lemma save_missedCount s : missedCount (saveHighScore s) = missedCount s.
Proof. split_save. Qed.

Lemma save_timeLeft s : timeLeft (saveHighScore s) = timeLeft s.
Proof. split_save. Qed.

Lemma save_gameState s : gameState (saveHighScore s) = gameState s.
Proof. split_save. Qed.

Lemma save_timeouts s : timeouts (saveHighScore s) = timeouts s.
Proof. split_save. Qed.

Lemma save_sparkles s : sparkles (saveHighScore s) = sparkles s.
Proof. split_save. Qed.

Lemma save_playing s : gameState s = playing -> saveHighScore s = s.
Proof. intros H. unfold saveHighScore. now rewrite H. Qed.

Lemma save_idle s : gameState s = idle -> saveHighScore s = s.
Proof. intros H. unfold saveHighScore. now rewrite H. Qed.

Lemma run_app evs1 evs2 s : run (evs1 ++ evs2) s = run evs2 (run evs1 s).
Proof. unfold run. apply fold_left_app. Qed.

Lemma run_cons e evs s : run (e :: evs) s = run evs (step e s).
Proof. reflexivity. Qed.

(** ** Slots: identifiers and well-formedness *)

Lemma wellFormed_slotState tv : wellFormed tv <-> slotState tv <> None.
Proof.
  unfold wellFormed, slotState.
  destruct (isVisible tv), (isSmashed tv); split; intros H;
    try discriminate; try (intros _; reflexivity); try congruence.
  - specialize (H eq_refl). discriminate.
Qed.

Lemma map_id_update (c : TVState -> bool) (f : TVState -> TVState) l :
  (forall t, id (f t) = id t) ->
  map id (map (fun t => if c t then f t else t) l) = map id l.
Proof.
  intros Hf. rewrite map_map. apply map_ext.
  intros t. destruct (c t); auto.
Qed.

Lemma find_id_unique i l tv t :
  NoDup (map id l) ->
  find (fun t => id t =? i) l = Some tv ->
  In t l -> id t = i -> t = tv.
Proof.
  induction l as [|a l IH]; simpl; intros Hnd Hf Hin Hid; [contradiction|].
  inversion Hnd as [|? ? Hnotin Hnd']; subst.
  destruct (id a =? id t) eqn:Ha.
  - injection Hf as <-. destruct Hin as [->|Hin]; [reflexivity|].
    exfalso. apply Hnotin. apply Z.eqb_eq in Ha. rewrite Ha.
    now apply in_map.
  - destruct Hin as [->|Hin].
    + rewrite Z.eqb_refl in Ha. discriminate.
    + now apply IH.
Qed.

Lemma spawnTV_ids r l l' : spawnTV r l = Some l' -> map id l' = map id l.
Proof.
  unfold spawnTV. destruct (_ =? _)%nat.
  - now intros [= <-].
  - destruct js_index; [|discriminate]. intros [= <-].
    now apply map_id_update.
Qed.

Lemma spawnTV_wf r l l' :
  spawnTV r l = Some l' -> Forall wellFormed l -> Forall wellFormed l'.
Proof.
  unfold spawnTV. destruct (_ =? _)%nat.
  - now intros [= <-].
  - destruct js_index as [randomTv|]; [|discriminate]. intros [= <-] H.
    apply Forall_map. eapply Forall_impl; [|exact H].
    intros t Ht. destruct (id t =? id randomTv); [|exact Ht].
    unfold wellFormed, reveal; simpl. discriminate.
Qed.

(** A draw in [0,1) always picks one of the hidden slots: the spawn
    updater never reads past the end of [hiddenTvs]. *)
Lemma random_index_in_range (r : Q) (len : nat) :
  (0 <= r)%Q -> (r < 1)%Q -> (0 < len)%nat ->
  0 <= Qfloor (r * inject_Z (Z.of_nat len)) < Z.of_nat len.
Proof.
  intros H0 H1 Hlen.
  assert (Hl : (0 < inject_Z (Z.of_nat len))%Q).
  { change 0%Q with (inject_Z 0). rewrite <- Zlt_Qlt. lia. }
  split.
  - rewrite <- (Qfloor_Z 0). apply Qfloor_resp_le.
    change (inject_Z 0) with 0%Q. apply Qmult_le_0_compat; [exact H0|].
    now apply Qlt_le_weak.
  - rewrite Zlt_Qlt. eapply Qle_lt_trans; [apply Qfloor_le|].
    rewrite <- (Qmult_1_l (inject_Z (Z.of_nat len))) at 2.
    apply Qmult_lt_compat_r; assumption.
Qed.

Lemma spawnTV_total r prev :
  (0 <= r)%Q -> (r < 1)%Q -> exists l, spawnTV r prev = Some l.
Proof.
  intros H0 H1. unfold spawnTV.
  destruct (length (filter isHidden prev) =? 0)%nat eqn:E; [eauto|].
  apply Nat.eqb_neq in E.
  destruct (random_index_in_range r (length (filter isHidden prev)) H0 H1)
    as [Hlo Hhi]; [lia|].
  unfold js_index.
  replace (_ <? 0) with false by (symmetry; apply Z.ltb_ge; exact Hlo).
  destruct (nth_error _ _) as [tv|] eqn:Hn; [eauto|].
  apply nth_error_None in Hn. lia.
Qed.

Lemma checkTvs_ids rng l : forall n, map id (fst (checkTvs rng n l)) = map id l.
Proof.
  induction l as [|tv l IH]; intros n; simpl; [reflexivity|].
  destruct (isTarget tv); [destruct (Qltb _ _)|];
    match goal with
    | |- context [checkTvs rng ?m l] =>
        specialize (IH m); destruct (checkTvs rng m l)
    end; simpl in *; now rewrite IH.
Qed.

Lemma checkTvs_wf rng l :
  forall n, Forall wellFormed l -> Forall wellFormed (fst (checkTvs rng n l)).
Proof.
  induction l as [|tv l IH]; intros n H; simpl; [constructor|].
  inversion H as [|? ? Htv Hl]; subst.
  destruct (isTarget tv) eqn:Ht; [destruct (Qltb _ _)|];
    match goal with
    | |- context [checkTvs rng ?m l] =>
        specialize (IH m Hl); destruct (checkTvs rng m l)
    end; simpl in *; constructor; auto.
  unfold isTarget in Ht. apply andb_true_iff in Ht as [_ Hs].
  unfold wellFormed, escape; simpl. intros E. rewrite E in Hs. discriminate.
Qed.

Lemma smashUpdater_ids i l : map id (smashUpdater i l) = map id l.
Proof.
  unfold smashUpdater. destruct find; [|reflexivity].
  destruct (_ || _); [reflexivity|]. now apply map_id_update.
Qed.

Lemma smashUpdater_wf i l :
  NoDup (map id l) -> Forall wellFormed l -> Forall wellFormed (smashUpdater i l).
Proof.
  intros Hnd H. unfold smashUpdater.
  destruct (find _ l) as [tv|] eqn:Hf; [|exact H].
  destruct (negb (isVisible tv) || isSmashed tv) eqn:Hc; [exact H|].
  apply orb_false_iff in Hc as [Hv _]. apply negb_false_iff in Hv.
  apply Forall_forall. intros x Hin.
  apply in_map_iff in Hin as (t & <- & Ht).
  destruct (id t =? i) eqn:Hid.
  - apply Z.eqb_eq in Hid.
    assert (t = tv) by (eapply find_id_unique; eauto). subst t.
    unfold wellFormed, smash; simpl. now intros _.
  - rewrite Forall_forall in H. now apply H.
Qed.

Lemma conceal_ids i l :
  map id (map (fun t => if id t =? i then conceal t else t) l) = map id l.
Proof. now apply map_id_update. Qed.

Lemma conceal_wf i l :
  Forall wellFormed l ->
  Forall wellFormed (map (fun t => if id t =? i then conceal t else t) l).
Proof.
  intros H. apply Forall_map. eapply Forall_impl; [|exact H].
  intros t Ht. destruct (id t =? i); [|exact Ht].
  unfold wellFormed, conceal; simpl. discriminate.
Qed.

Lemma freshTvs_wf : Forall wellFormed freshTvs.
Proof. repeat constructor; unfold wellFormed; simpl; discriminate. Qed.

Lemma freshTvs_NoDup : NoDup (map id freshTvs).
Proof.
  simpl. repeat constructor; simpl; intuition discriminate.
Qed.

Lemma handle_slotsInv e s : slotsInv (tvs s) -> slotsInv (tvs (handle e s)).
Proof.
  intros [Hid Hwf].
  assert (Hnd : NoDup (map id (tvs s))) by (rewrite Hid; apply freshTvs_NoDup).
  destruct e as [| |r|rng|i rect|k]; simpl.
  - split; [reflexivity|apply freshTvs_wf].
  - unfold gameTimer. destruct (gameState s); try (split; assumption).
    destruct (_ <=? _); split; assumption.
  - unfold spawner. destruct (gameState s); try (split; assumption).
    destruct (spawnTV r (tvs s)) as [l|] eqn:Hs; [|split; assumption].
    simpl. split.
    + rewrite (spawnTV_ids _ _ _ Hs). exact Hid.
    + eapply spawnTV_wf; eauto.
  - unfold autoHide. destruct (gameState s); try (split; assumption).
    pose proof (checkTvs_ids rng (tvs s) 0) as Hi.
    pose proof (checkTvs_wf rng (tvs s) 0 Hwf) as Hw.
    destruct (checkTvs rng 0 (tvs s)) as [l m]; cbn [fst tvs] in *.
    split; [rewrite Hi; exact Hid|exact Hw].
  - unfold strike, smashTV. destruct (gameState s); try (split; assumption).
    simpl. split.
    + rewrite smashUpdater_ids. exact Hid.
    + now apply smashUpdater_wf.
  - unfold fireTimeout. destruct (nth_error _ k) as [[d c]|]; [|split; assumption].
    destruct c; simpl; [split; assumption|].
    split; [rewrite conceal_ids; exact Hid|now apply conceal_wf].
Qed.

Lemma step_slotsInv e s : slotsInv (tvs s) -> slotsInv (tvs (step e s)).
Proof. intros H. unfold step. rewrite save_tvs. now apply handle_slotsInv. Qed.

Lemma reachable_slotsInv s : reachable s -> slotsInv (tvs s).
Proof.
  induction 1 as [saved|e s _ IH].
  - split; [reflexivity|apply freshTvs_wf].
  - now apply step_slotsInv.
Qed.

Lemma save_idempotent s : saveHighScore (saveHighScore s) = saveHighScore s.
Proof.
  destruct (gameState s) eqn:Hg.
  - now rewrite !(save_idle s Hg).
  - now rewrite !(save_playing s Hg).
  - unfold saveHighScore. rewrite Hg.
    destruct (highScore s <? score s) eqn:Hlt; simpl.
    + now rewrite Z.ltb_irrefl.
    + now rewrite Hg, Hlt.
Qed.

Lemma reachable_committed s : reachable s -> saveHighScore s = s.
Proof.
  destruct 1 as [saved|e s _]; [reflexivity|apply save_idempotent].
Qed.

Lemma reachable_run evs s : reachable s -> reachable (run evs s).
Proof.
  revert s. induction evs as [|e evs IH]; intros s Hr; [exact Hr|].
  rewrite run_cons. apply IH. now apply reach_step.
Qed.

(** ** Slot state invariant *)

(** C7: in every reachable state each slot is hidden-unstruck,
    revealed-unstruck or revealed-struck, never hidden-struck (struck
    implies revealed), and the state after any further operation (start,
    tick, spawn, escape pass, strike, timeout) has the same property. *)
Theorem slots_never_hidden_struck s :
  reachable s ->
  Forall wellFormed (tvs s) /\
  (forall tv, In tv (tvs s) -> slotState tv <> None) /\
  (forall e, Forall wellFormed (tvs (step e s))).
Proof.
  intros Hr. pose proof (reachable_slotsInv s Hr) as Hinv.
  split; [apply Hinv|]. split.
  - intros tv Hin. apply wellFormed_slotState.
    destruct Hinv as [_ Hwf]. rewrite Forall_forall in Hwf. now apply Hwf.
  - intros e. now apply step_slotsInv.
Qed.

Lemma slots_never_hidden_struck_witness :
  let s := step (Strike 0 rect0) (step (Spawn 0) (step Start (initial None))) in
  Forall wellFormed (tvs s) /\
  (forall tv, In tv (tvs s) -> slotState tv <> None) /\
  (forall e, Forall wellFormed (tvs (step e s))).
Proof.
  apply slots_never_hidden_struck.
  do 3 apply reach_step. apply reach_initial.
Defined.

(** ** Round start *)

(** C5: from a state whose phase is idle or ended, the start action gives
    nine slots, all hidden and unstruck, score 0, combo 0, missedCount 0,
    timeLeft 30 and phase playing. *)
Theorem start_resets_round s :
  gameState s = idle \/ gameState s = ended ->
  let s' := step Start s in
  length (tvs s') = 9%nat /\
  Forall (fun tv => slotState tv = Some hidden_unstruck) (tvs s') /\
  score s' = 0 /\ combo s' = 0 /\ missedCount s' = 0 /\
  timeLeft s' = 30 /\ gameState s' = playing.
Proof.
  intros _. cbv zeta. unfold step, handle.
  rewrite save_playing by reflexivity. simpl.
  repeat split; try reflexivity. repeat constructor.
Qed.

Lemma start_resets_round_witness :
  let s' := step Start (run (repeat Tick 30) (step Start (initial (Some 700)))) in
  length (tvs s') = 9%nat /\
  Forall (fun tv => slotState tv = Some hidden_unstruck) (tvs s') /\
  score s' = 0 /\ combo s' = 0 /\ missedCount s' = 0 /\
  timeLeft s' = 30 /\ gameState s' = playing.
Proof.
  apply start_resets_round. right. reflexivity.
Defined.

(** ** Strikes *)

(** C9: when the phase is not playing, a strike on any slot id changes
    nothing at all: slots, score, combo, missedCount, sparkles and
    scheduled timeouts are those of the state before. *)
Theorem strike_outside_round i rect s :
  gameState s <> playing ->
  strike i rect s = s /\ (reachable s -> step (Strike i rect) s = s).
Proof.
  intros Hg.
  assert (E : strike i rect s = s).
  { unfold strike, smashTV. destruct (gameState s); congruence. }
  split; [exact E|]. intros Hr. unfold step, handle. rewrite E.
  now apply reachable_committed.
Qed.

Lemma strike_outside_round_witness :
  strike 4 rect0 (initial None) = initial None /\
  (reachable (initial None) ->
   step (Strike 4 rect0) (initial None) = initial None).
Proof.
  apply strike_outside_round. simpl. discriminate.
Defined.


(** C1 (as the code behaves): during play, [smashTV] on a slot that is
    hidden, already struck or absent leaves the slots as they are, yet
    still increments combo, adds the combo points to the score, appends a
    sparkle and schedules both timeouts. *)
Theorem strike_invalid_slot_still_scores i rect s :
  gameState s = playing ->
  validStrike i s = false ->
  let s' := strike i rect s in
  tvs s' = tvs s /\
  missedCount s' = missedCount s /\
  combo s' = combo s + 1 /\
  score s' = score s + 100 * Z.min (combo s + 1) 5 /\
  length (sparkles s') = S (length (sparkles s)) /\
  timeouts s' =
    timeouts s ++ [(500, RemoveSparkle (sparkleIdRef s)); (300, HideTV i)].
Proof.
  intros Hg Hv. cbv zeta. unfold strike, smashTV. rewrite Hg. simpl.
  repeat split.
  - unfold validStrike, isPlaying, slot in Hv. rewrite Hg in Hv. simpl in Hv.
    unfold smashUpdater. destruct (find _ (tvs s)) as [tv|]; [|reflexivity].
    unfold isTarget in Hv.
    destruct (isVisible tv), (isSmashed tv); simpl in *;
      try reflexivity; discriminate.
  - rewrite length_app. simpl. lia.
Qed.

Lemma strike_invalid_slot_still_scores_witness :
  let s := step Start (initial None) in
  let s' := strike 3 rect0 s in
  slot 3 s = Some (mkTV 3 false false false) /\
  tvs s' = tvs s /\
  missedCount s' = 0 /\
  combo s' = 1 /\
  score s' = 100 /\
  length (sparkles s') = 1%nat /\
  timeouts s' = [(500, RemoveSparkle 0); (300, HideTV 3)].
Proof.
  split; [reflexivity|].
  apply (strike_invalid_slot_still_scores 3 rect0 (step Start (initial None)));
    reflexivity.
Defined.

(** ** The auto-hide pass *)

Lemma Qltb_lt a b : Qltb a b = true <-> (a < b)%Q.
Proof. unfold Qltb, Qlt. apply Z.ltb_lt. Qed.

Lemma drawIndex_cons tv l i :
  drawIndex (tv :: l) (S i) =
  ((if isTarget tv then 1 else 0) + drawIndex l i)%nat.
Proof. unfold drawIndex. simpl. now destruct (isTarget tv). Qed.

Lemma escapesAt_head rng n tv l :
  escapesAt rng n (tv :: l) 0 = isTarget tv && Qltb (rng n) escapeChance.
Proof. unfold escapesAt, drawIndex. simpl. now rewrite Nat.add_0_r. Qed.

Lemma escapesAt_tail rng n tv l i :
  escapesAt rng n (tv :: l) (S i) =
  escapesAt rng (if isTarget tv then S n else n) l i.
Proof.
  unfold escapesAt. rewrite drawIndex_cons. simpl nth_error.
  destruct (nth_error l i); [|reflexivity].
  destruct (isTarget tv); simpl Nat.add; [|reflexivity].
  now rewrite Nat.add_succ_r.
Qed.

Lemma filter_map_length {A B} (f : B -> bool) (g : A -> B) l :
  length (filter f (map g l)) = length (filter (fun a => f (g a)) l).
Proof.
  induction l as [|a l IH]; simpl; [reflexivity|].
  destruct (f (g a)); simpl; now rewrite IH.
Qed.

Lemma escapeCount_cons rng n tv l :
  escapeCount rng n (tv :: l) =
  (if escapesAt rng n (tv :: l) 0 then 1 else 0) +
  escapeCount rng (if isTarget tv then S n else n) l.
Proof.
  unfold escapeCount. cbn [length seq filter].
  rewrite <- seq_shift.
  destruct (escapesAt rng n (tv :: l) 0); cbn [length];
    rewrite filter_map_length,
      (filter_ext _ _ (fun i => escapesAt_tail rng n tv l i)); lia.
Qed.

Lemma escapeCount_nonneg rng n l : 0 <= escapeCount rng n l.
Proof. unfold escapeCount. lia. Qed.

Lemma checkTvs_count rng l :
  forall n, snd (checkTvs rng n l) = escapeCount rng n l.
Proof.
  induction l as [|tv l IH]; intros n; [reflexivity|].
  rewrite escapeCount_cons, escapesAt_head. cbn [checkTvs].
  destruct (isTarget tv); [destruct (Qltb (rng n) escapeChance)|];
    match goal with
    | |- context [checkTvs rng ?m l] =>
        specialize (IH m); destruct (checkTvs rng m l)
    end; cbn [snd andb] in *; lia.
Qed.

Lemma checkTvs_nth rng l :
  forall n i,
    nth_error (fst (checkTvs rng n l)) i =
    option_map (fun tv => if escapesAt rng n l i then escape tv else tv)
               (nth_error l i).
Proof.
  induction l as [|tv l IH]; intros n i.
  - destruct i; reflexivity.
  - destruct i as [|i].
    + rewrite escapesAt_head. simpl.
      destruct (isTarget tv); [destruct (Qltb (rng n) escapeChance)|];
        match goal with
        | |- context [checkTvs rng ?m l] => destruct (checkTvs rng m l)
        end; reflexivity.
    + rewrite escapesAt_tail. simpl.
      destruct (isTarget tv); [destruct (Qltb (rng n) escapeChance)|];
        match goal with
        | |- context [checkTvs rng ?m l] =>
            specialize (IH m i); destruct (checkTvs rng m l)
        end; simpl in *; exact IH.
Qed.

Lemma checkTvs_length rng l :
  forall n, length (fst (checkTvs rng n l)) = length l.
Proof.
  intros n. rewrite <- (length_map id), checkTvs_ids. apply length_map.
Qed.

Lemma drawIndex_lt l :
  forall i j tv,
    (i < j)%nat -> nth_error l i = Some tv -> isTarget tv = true ->
    (drawIndex l i < drawIndex l j)%nat.
Proof.
  induction l as [|a l IH]; intros i j tv Hij Hi Ht.
  - destruct i; discriminate.
  - destruct j as [|j]; [lia|]. destruct i as [|i].
    + injection Hi as ->. rewrite drawIndex_cons, Ht.
      unfold drawIndex. simpl. lia.
    + rewrite !drawIndex_cons. simpl in Hi.
      assert (drawIndex l i < drawIndex l j)%nat by (eapply IH; eauto; lia).
      lia.
Qed.

Lemma autoHide_fields rng s :
  let s' := autoHide rng s in
  let missed := if isPlaying s then escapeCount rng 0 (tvs s) else 0 in
  (forall i tv, nth_error (tvs s) i = Some tv ->
     nth_error (tvs s') i =
     Some (if isPlaying s && escapesAt rng 0 (tvs s) i
           then escape tv else tv)) /\
  length (tvs s') = length (tvs s) /\
  missedCount s' = missedCount s + missed /\
  combo s' = (if missed =? 0 then combo s else 0) /\
  score s' = score s /\ highScore s' = highScore s /\
  timeLeft s' = timeLeft s /\ gameState s' = gameState s /\
  sparkles s' = sparkles s /\ timeouts s' = timeouts s /\
  localStorage s' = localStorage s.
Proof.
  cbv zeta. unfold autoHide, isPlaying.
  destruct (gameState s) eqn:Hg; simpl;
    try (repeat split; auto; lia).
  pose proof (checkTvs_nth rng (tvs s) 0) as Hn.
  pose proof (checkTvs_count rng (tvs s) 0) as Hc.
  pose proof (checkTvs_length rng (tvs s) 0) as Hl.
  destruct (checkTvs rng 0 (tvs s)) as [l m]. cbn [fst snd] in *. subst m.
  simpl. repeat split; auto.
  intros i tv Hi. now rewrite Hn, Hi.
Qed.

Lemma escapesAt_iff rng n l i :
  escapesAt rng n l i = true <->
  exists tv, nth_error l i = Some tv /\
             isVisible tv = true /\ isSmashed tv = false /\
             (rng (n + drawIndex l i)%nat < 15 # 100)%Q.
Proof.
  unfold escapesAt, isTarget. destruct (nth_error l i) as [tv|].
  - rewrite !andb_true_iff, negb_true_iff, Qltb_lt. split.
    + intros [[Hv Hs] Hq]. now exists tv.
    + intros (tv' & [= <-] & Hv & Hs & Hq). auto.
  - split; [discriminate|]. now intros (tv & [=] & _).
Qed.

(** C8: one firing of the auto-hide interval.  While playing, the slot at
    each position escapes exactly when it is revealed and unstruck and its
    own draw of [Math.random()] is below 0.15; an escaping slot becomes
    hidden, every other slot is untouched; missedCount grows by one per
    escaping slot and combo becomes 0 as soon as one slot escapes, whichever
    it is.  When the phase is not playing the interval does not exist and
    nothing of this changes. *)
Theorem escape_monitor_firing rng s :
  let s' := step (Escape rng) s in
  let l := tvs s in
  let missed := if isPlaying s then escapeCount rng 0 l else 0 in
  (forall i, escapesAt rng 0 l i = true <->
     exists tv, nth_error l i = Some tv /\
                isVisible tv = true /\ isSmashed tv = false /\
                (rng (drawIndex l i) < 15 # 100)%Q) /\
  (forall i j tv, (i < j)%nat -> nth_error l i = Some tv ->
     isTarget tv = true -> (drawIndex l i < drawIndex l j)%nat) /\
  (forall i tv, nth_error l i = Some tv ->
     nth_error (tvs s') i =
     Some (if isPlaying s && escapesAt rng 0 l i
           then mkTV (id tv) false false (showScore tv) else tv)) /\
  length (tvs s') = length l /\
  0 <= missed /\
  missedCount s' = missedCount s + missed /\
  combo s' = (if missed =? 0 then combo s else 0) /\
  score s' = score s /\ timeLeft s' = timeLeft s /\
  gameState s' = gameState s.
Proof.
  cbv zeta. unfold step, handle.
  rewrite save_tvs, save_missedCount, save_combo, save_score,
    save_timeLeft, save_gameState.
  destruct (autoHide_fields rng s)
    as (Hn & Hl & Hm & Hc & Hs & _ & Ht & Hg & _).
  split; [intros i; apply (escapesAt_iff rng 0)|].
  split; [apply drawIndex_lt|].
  split.
  { intros i tv Hi. rewrite (Hn i tv Hi).
    destruct (isPlaying s); [|reflexivity]. cbn [andb].
    destruct (escapesAt rng 0 (tvs s) i) eqn:He; [|reflexivity].
    apply escapesAt_iff in He as (tv' & Hi' & _ & Hsm & _).
    rewrite Hi in Hi'. injection Hi' as <-.
    unfold escape. now rewrite Hsm. }
  repeat split; auto.
  destruct (isPlaying s); [apply escapeCount_nonneg|lia].
Qed.

(** One firing on a board where slot 0 is struck and slots 1 and 2 are
    revealed: the first draw (slot 1) is 1/2, the second (slot 2) is 1/10,
    so only slot 2 escapes; combo falls from 1 to 0 and missedCount is 1. *)
Example escape_pass_example :
  let s := run [Spawn 0; Spawn 0; Spawn 0; Strike 0 rect0]
               (step Start (initial None)) in
  let s' := step (Escape secondLow) s in
  combo s = 1 /\
  map slotState (firstn 3 (tvs s)) =
    [Some revealed_struck; Some revealed_unstruck; Some revealed_unstruck] /\
  map slotState (firstn 3 (tvs s')) =
    [Some revealed_struck; Some revealed_unstruck; Some hidden_unstruck] /\
  combo s' = 0 /\ missedCount s' = 1 /\ score s' = 100.
Proof. vm_compute. repeat (split; [reflexivity|]). reflexivity. Qed.

(** ** missedCount *)

Lemma handle_missedCount e s :
  missedCount (handle e s) =
  match e with
  | Start => 0
  | Escape rng =>
      missedCount s + (if isPlaying s then escapeCount rng 0 (tvs s) else 0)
  | _ => missedCount s
  end.
Proof.
  destruct e as [| |r|rng|i rect|k]; simpl.
  - reflexivity.
  - unfold gameTimer. destruct (gameState s); try reflexivity.
    now destruct (_ <=? _).
  - unfold spawner. destruct (gameState s); try reflexivity.
    now destruct (spawnTV r (tvs s)).
  - apply autoHide_fields.
  - unfold strike, smashTV. now destruct (gameState s).
  - unfold fireTimeout. destruct (nth_error _ k) as [[d c]|]; [|reflexivity].
    now destruct c.
Qed.

Lemma step_missedCount_le e s :
  isStart e = false -> missedCount s <= missedCount (step e s).
Proof.
  intros He. unfold step. rewrite save_missedCount, handle_missedCount.
  destruct e; try discriminate; try lia.
  destruct (isPlaying s); [|lia].
  pose proof (escapeCount_nonneg rng 0 (tvs s)). lia.
Qed.

Lemma step_missedCount_eq e s :
  isStart e = false -> isEscape e = false ->
  missedCount (step e s) = missedCount s.
Proof.
  intros He He'. unfold step. rewrite save_missedCount, handle_missedCount.
  destruct e; try discriminate; reflexivity.
Qed.

(** C10: over any sequence of operations that contains no round start,
    missedCount never decreases; it stays the same when the sequence has
    no auto-hide pass; and one auto-hide pass adds exactly the number of
    slots that escape in it, one per escape. *)
Theorem missedCount_monotone evs s :
  noStart evs = true ->
  missedCount s <= missedCount (run evs s) /\
  (forallb (fun e => negb (isEscape e)) evs = true ->
   missedCount (run evs s) = missedCount s) /\
  (forall rng,
     missedCount (step (Escape rng) s) =
     missedCount s + (if isPlaying s then escapeCount rng 0 (tvs s) else 0)).
Proof.
  intros Hns. split; [|split].
  - revert s Hns. unfold noStart.
    induction evs as [|e evs IH]; intros s Hns; cbn [forallb] in *.
    + simpl. lia.
    + apply andb_true_iff in Hns as [He Hns]. apply negb_true_iff in He.
      specialize (IH (step e s) Hns). rewrite run_cons.
      pose proof (step_missedCount_le e s He). lia.
  - revert s Hns. unfold noStart.
    induction evs as [|e evs IH]; intros s Hns Hne; cbn [forallb] in *.
    + reflexivity.
    + apply andb_true_iff in Hns as [He Hns]. apply negb_true_iff in He.
      apply andb_true_iff in Hne as [He' Hne]. apply negb_true_iff in He'.
      rewrite run_cons, (IH (step e s) Hns Hne).
      now apply step_missedCount_eq.
  - intros rng. unfold step.
    now rewrite save_missedCount, handle_missedCount.
Qed.

Lemma missedCount_monotone_witness :
  let s := step (Spawn 0) (step (Spawn 0) (step Start (initial None))) in
  let evs := [Escape lowDraw; Tick; Strike 0 rect0; Timeout 0] in
  missedCount s = 0 /\ missedCount (run evs s) = 2 /\
  missedCount s <= missedCount (run evs s).
Proof.
  split; [reflexivity|]. split; [reflexivity|].
  apply (missedCount_monotone
           [Escape lowDraw; Tick; Strike 0 rect0; Timeout 0]
           (step (Spawn 0) (step (Spawn 0) (step Start (initial None))))).
  reflexivity.
Defined.

(** ** Combo chains *)


Lemma count_app p evs1 evs2 :
  count p (evs1 ++ evs2) = (count p evs1 + count p evs2)%nat.
Proof. unfold count. now rewrite filter_app, length_app. Qed.







(** ** The round clock and settlement *)

Ltac frame_tac :=
  solve [simpl; repeat split; intros; auto; try discriminate; congruence].

Lemma handle_frame e s :
  isStart e = false ->
  highScore (handle e s) = highScore s /\
  localStorage (handle e s) = localStorage s /\
  (isTick e = false ->
   timeLeft (handle e s) = timeLeft s /\
   gameState (handle e s) = gameState s) /\
  (gameState s <> playing -> score (handle e s) = score s).
Proof.
  intros He. destruct e as [| |r|rng|i rect|k]; simpl; try discriminate.
  - unfold gameTimer. destruct (gameState s) eqn:Hg;
      [frame_tac| |frame_tac].
    destruct (_ <=? _); frame_tac.
  - unfold spawner. destruct (gameState s) eqn:Hg; [frame_tac| |frame_tac].
    destruct (spawnTV r (tvs s)); frame_tac.
  - destruct (autoHide_fields rng s)
      as (_ & _ & _ & _ & Hs & Hh & Ht & Hg & _ & _ & Hl).
    frame_tac.
  - unfold strike, smashTV. destruct (gameState s) eqn:Hg; frame_tac.
  - unfold fireTimeout. destruct (nth_error _ k) as [[d c]|];
      [destruct c|]; frame_tac.
Qed.

Lemma step_highScore_le e s : highScore s <= highScore (step e s).
Proof.
  unfold step.
  assert (H : highScore (handle e s) = highScore s).
  { destruct e; try (apply handle_frame; reflexivity). reflexivity. }
  unfold saveHighScore. destruct (gameState (handle e s)); try lia.
  destruct (highScore (handle e s) <? score (handle e s)) eqn:Hlt;
    simpl; [apply Z.ltb_lt in Hlt|]; lia.
Qed.

Lemma noStart_app evs1 evs2 :
  noStart (evs1 ++ evs2) = noStart evs1 && noStart evs2.
Proof. unfold noStart. apply forallb_app. Qed.

Ltac fields :=
  cbn [score highScore timeLeft gameState tvs sparkles combo missedCount
       sparkleIdRef timeouts localStorage].

Lemma step_tick_last s :
  gameState s = playing -> timeLeft s <= 1 ->
  timeLeft (step Tick s) = 0 /\ gameState (step Tick s) = ended /\
  score (step Tick s) = score s /\
  highScore (step Tick s) = Z.max (highScore s) (score s) /\
  localStorage (step Tick s) =
    localStorage s ++ (if highScore s <? score s then [score s] else []).
Proof.
  intros Hg Hle. unfold step, handle, gameTimer. rewrite Hg.
  apply Z.leb_le in Hle. rewrite Hle.
  unfold saveHighScore. fields.
  destruct (highScore s <? score s) eqn:Hb; fields.
  - apply Z.ltb_lt in Hb. repeat split; try reflexivity. lia.
  - apply Z.ltb_ge in Hb. rewrite app_nil_r. repeat split; try reflexivity. lia.
Qed.

Lemma step_tick_next s :
  gameState s = playing -> 1 < timeLeft s ->
  timeLeft (step Tick s) = timeLeft s - 1 /\
  gameState (step Tick s) = playing /\
  highScore (step Tick s) = highScore s /\
  localStorage (step Tick s) = localStorage s.
Proof.
  intros Hg Hlt. unfold step, handle, gameTimer. rewrite Hg.
  apply Z.leb_gt in Hlt. rewrite Hlt.
  rewrite save_playing by reflexivity. fields.
  repeat split; auto.
Qed.

Lemma step_ended e s :
  isStart e = false -> gameState s = ended -> score s <= highScore s ->
  timeLeft (step e s) = timeLeft s /\ gameState (step e s) = ended /\
  score (step e s) = score s /\ highScore (step e s) = highScore s /\
  localStorage (step e s) = localStorage s.
Proof.
  intros He Hg Hle.
  destruct (handle_frame e s He) as (Hh & Hl & Htick & Hsc).
  assert (Hsc' : score (handle e s) = score s) by (apply Hsc; congruence).
  assert (Htg : timeLeft (handle e s) = timeLeft s /\
                gameState (handle e s) = ended).
  { destruct (isTick e) eqn:Hte.
    - destruct e; try discriminate. simpl. unfold gameTimer.
      rewrite Hg. now split.
    - destruct (Htick eq_refl) as [-> ->]. now split. }
  destruct Htg as [Ht' Hg'].
  unfold step, saveHighScore. rewrite Hg', Hh, Hsc'.
  replace (highScore s <? score s) with false
    by (symmetry; apply Z.ltb_ge; lia).
  repeat split; auto.
Qed.

Lemma step_playing_frame e s :
  isStart e = false -> isTick e = false -> gameState s = playing ->
  timeLeft (step e s) = timeLeft s /\ gameState (step e s) = playing /\
  highScore (step e s) = highScore s /\
  localStorage (step e s) = localStorage s.
Proof.
  intros He Hte Hg.
  destruct (handle_frame e s He) as (Hh & Hl & Htick & _).
  destruct (Htick Hte) as [Ht' Hg'].
  unfold step. rewrite save_playing by congruence.
  repeat split; congruence.
Qed.

Lemma count_snoc p evs e :
  Z.of_nat (count p (evs ++ [e])) =
  Z.of_nat (count p evs) + (if p e then 1 else 0).
Proof.
  rewrite count_app. unfold count at 2. cbn [filter].
  destruct (p e); cbn [length]; lia.
Qed.

(** What a round looks like after [n] ticks: before the 30th tick the game
    is on and the best score and the storage are those of the round start;
    from the 30th tick on the round is over and settled. *)
Lemma round_trace evs s0 :
  noStart evs = true ->
  let s := run evs (step Start s0) in
  let n := Z.of_nat (count isTick evs) in
  timeLeft s = 30 - Z.min n 30 /\
  (if n <? 30
   then gameState s = playing /\
        highScore s = highScore s0 /\ localStorage s = localStorage s0
   else gameState s = ended /\
        highScore s = Z.max (highScore s0) (score s) /\
        localStorage s =
          localStorage s0 ++
          (if highScore s0 <? score s then [score s] else [])).
Proof.
  cbv zeta. induction evs as [|e evs IH] using rev_ind; intros Hns.
  - cbn. repeat split; reflexivity.
  - rewrite noStart_app in Hns. apply andb_true_iff in Hns as [Hns He].
    unfold noStart in He. cbn [forallb] in He. rewrite andb_true_r in He.
    apply negb_true_iff in He.
    destruct (IH Hns) as [Ht Hcase]. clear IH.
    rewrite run_app, count_snoc. cbn [run fold_left].
    fold (run evs (step Start s0)).
    set (s := run evs (step Start s0)) in *.
    set (n := Z.of_nat (count isTick evs)) in *.
    assert (Hn : 0 <= n) by (unfold n; lia).
    destruct (n <? 30) eqn:Hlt.
    + apply Z.ltb_lt in Hlt. destruct Hcase as (Hg & Hhs & Hls).
      destruct (isTick e) eqn:Hte.
      * destruct e; try discriminate.
        destruct (Z.le_gt_cases (timeLeft s) 1) as [Hle|Hgt].
        -- destruct (step_tick_last s Hg Hle) as (T1 & T2 & T3 & T4 & T5).
           replace (n + 1 <? 30) with false by (symmetry; apply Z.ltb_ge; lia).
           rewrite T1, T2, T3, T4, T5, Hhs, Hls.
           repeat split; try reflexivity. lia.
        -- destruct (step_tick_next s Hg Hgt) as (T1 & T2 & T3 & T4).
           replace (n + 1 <? 30) with true by (symmetry; apply Z.ltb_lt; lia).
           rewrite T1, T2, T3, T4. repeat split; auto. lia.
      * destruct (step_playing_frame e s He Hte Hg) as (T1 & T2 & T3 & T4).
        replace (n + 0 <? 30) with true by (symmetry; apply Z.ltb_lt; lia).
        rewrite T1, T2, T3, T4. repeat split; auto. lia.
    + apply Z.ltb_ge in Hlt. destruct Hcase as (Hg & Hhs & Hls).
      assert (Hle : score s <= highScore s) by lia.
      destruct (step_ended e s He Hg Hle) as (T1 & T2 & T3 & T4 & T5).
      replace (n + (if isTick e then 1 else 0) <? 30) with false
        by (symmetry; apply Z.ltb_ge; destruct (isTick e); lia).
      rewrite T1, T2, T3, T4, T5. repeat split; auto.
      destruct (isTick e); lia.
Qed.

Lemma run_committed evs e s0 :
  saveHighScore (run evs (step e s0)) = run evs (step e s0).
Proof.
  induction evs as [|e' evs _] using rev_ind.
  - apply save_idempotent.
  - rewrite run_app. apply save_idempotent.
Qed.

(** C4: a round is started and then receives any operations except a new
    start.  After [n] clock ticks timeLeft is [30 - min(n,30)]: each tick
    while playing takes exactly 1 off, the value is never negative, it is 0
    exactly from the 30th tick on, and the phase is playing before the 30th
    tick and ended from it on.  The tick that ends the round is the 30th
    only; once ended, a tick changes nothing, and the round writes the best
    score at most once. *)
Theorem round_clock evs s0 :
  noStart evs = true ->
  let s := run evs (step Start s0) in
  let n := Z.of_nat (count isTick evs) in
  timeLeft s = 30 - Z.min n 30 /\
  0 <= timeLeft s /\
  (timeLeft s = 0 <-> 30 <= n) /\
  gameState s = (if n <? 30 then playing else ended) /\
  (gameState s = playing ->
   timeLeft (step Tick s) = timeLeft s - 1 /\
   (gameState (step Tick s) = ended <-> n = 29)) /\
  (gameState s = ended -> step Tick s = s) /\
  (length (localStorage s) <= S (length (localStorage s0)))%nat.
Proof.
  intros Hns. cbv zeta.
  destruct (round_trace evs s0 Hns) as [Ht Hcase]. cbv zeta in *.
  set (s := run evs (step Start s0)) in *.
  set (n := Z.of_nat (count isTick evs)) in *.
  assert (Hn : 0 <= n) by (unfold n; lia).
  split; [exact Ht|]. split; [lia|]. split; [lia|].
  destruct (n <? 30) eqn:Hlt.
  - apply Z.ltb_lt in Hlt. destruct Hcase as (Hg & Hh & Hl).
    split; [exact Hg|]. split; [|split].
    + intros _. destruct (Z.le_gt_cases (timeLeft s) 1) as [Hle|Hgt].
      * destruct (step_tick_last s Hg Hle) as (T1 & T2 & _).
        rewrite T1, T2. split; [lia|]. split; [lia|reflexivity].
      * destruct (step_tick_next s Hg Hgt) as (T1 & T2 & _).
        rewrite T1, T2. split; [lia|]. split; [discriminate|lia].
    + intros Hg'. congruence.
    + rewrite Hl. lia.
  - apply Z.ltb_ge in Hlt. destruct Hcase as (Hg & Hh & Hl).
    split; [exact Hg|]. split; [|split].
    + intros Hg'. congruence.
    + intros _. unfold step, handle, gameTimer. rewrite Hg.
      apply run_committed.
    + rewrite Hl, length_app.
      destruct (highScore s0 <? score s); simpl; lia.
Qed.

Lemma round_clock_witness :
  let s0 := initial None in
  let evs := repeat Tick 12 ++ [Spawn 0; Strike 0 rect0] ++ repeat Tick 18 in
  timeLeft (run evs (step Start s0)) = 0 /\
  gameState (run evs (step Start s0)) = ended /\
  timeLeft (run (repeat Tick 29) (step Start s0)) = 1 /\
  gameState (run (repeat Tick 29) (step Start s0)) = playing.
Proof.
  pose proof (round_clock
    (repeat Tick 12 ++ [Spawn 0; Strike 0 rect0] ++ repeat Tick 18)
    (initial None) eq_refl) as H.
  pose proof (round_clock (repeat Tick 29) (initial None) eq_refl) as H'.
  cbv zeta in H, H'.
  destruct H as (H1 & _ & _ & H2 & _). destruct H' as (H3 & _ & _ & H4 & _).
  split; [exact H1|]. split; [exact H2|]. split; [exact H3|exact H4].
Defined.

(** C3: a round is started from [s0] and then receives any operations
    except a new start.  While it is on, the best score and the storage are
    those of [s0]; once it has ended, the best score is the maximum of the
    best score before the round and the final score, and the storage
    received the final score exactly when that score is strictly above the
    previous best.  No operation ever lowers the best score. *)
Theorem best_score_settlement evs s0 :
  noStart evs = true ->
  let s := run evs (step Start s0) in
  match gameState s with
  | ended =>
      highScore s = Z.max (highScore s0) (score s) /\
      localStorage s =
        localStorage s0 ++ (if highScore s0 <? score s then [score s] else [])
  | _ => highScore s = highScore s0 /\ localStorage s = localStorage s0
  end /\
  highScore s0 <= highScore s /\
  (forall e, highScore s <= highScore (step e s)).
Proof.
  intros Hns. cbv zeta.
  destruct (round_trace evs s0 Hns) as [_ Hcase]. cbv zeta in *.
  split; [|split].
  - destruct (_ <? 30); destruct Hcase as (-> & Hh & Hl); now split.
  - destruct (_ <? 30); destruct Hcase as (_ & Hh & _); lia.
  - intros e. apply step_highScore_le.
Qed.

Lemma best_score_settlement_witness :
  let s0 := initial (Some 150) in
  let evs := [Spawn 0; Strike 0 rect0; Spawn 0; Strike 1 rect0]
             ++ repeat Tick 30 ++ [Timeout 0; Tick] in
  let s := run evs (step Start s0) in
  score s = 300 /\ gameState s = ended /\
  highScore s = 300 /\ localStorage s = [300].
Proof.
  pose proof (best_score_settlement
    ([Spawn 0; Strike 0 rect0; Spawn 0; Strike 1 rect0]
       ++ repeat Tick 30 ++ [Timeout 0; Tick])
    (initial (Some 150)) eq_refl) as H.
  cbv zeta in H. destruct H as (H & _).
  change (gameState _) with ended in H. cbv iota in H.
  destruct H as [Hh Hl].
  split; [reflexivity|]. split; [reflexivity|]. split.
  - rewrite Hh. reflexivity.
  - rewrite Hl. reflexivity.
Defined.

(** ** Timeouts across rounds *)

Lemma conceal_fresh i l :
  (forall t, In t l -> id t = i -> t = mkTV i false false false) ->
  map (fun t => if id t =? i then conceal t else t) l = l.
Proof.
  intros H. rewrite <- (map_id l) at 2. apply map_ext_in.
  intros t Hin. destruct (id t =? i) eqn:E; [|reflexivity].
  apply Z.eqb_eq in E. rewrite (H t Hin E). reflexivity.
Qed.

Lemma freshTvs_slots t :
  In t freshTvs -> t = mkTV (id t) false false false.
Proof.
  intros Hin. repeat (destruct Hin as [<-|Hin]; [reflexivity|]).
  contradiction.
Qed.

Lemma Forall_remove_nth {A} (P : A -> Prop) (l : list A) :
  forall k, Forall P l -> Forall P (remove_nth k l).
Proof.
  induction l as [|a l IH]; intros k H; destruct k; simpl; auto;
    inversion H; subst; auto.
Qed.

Lemma step_delaysInv e s : delaysInv s -> delaysInv (step e s).
Proof.
  intros H. unfold step, delaysInv. rewrite save_timeouts.
  destruct e as [| |r|rng|i rect|k]; cbn [handle].
  - exact H.
  - unfold gameTimer. destruct (gameState s); [exact H| |exact H].
    destruct (_ <=? _); exact H.
  - unfold spawner. destruct (gameState s); [exact H| |exact H].
    destruct (spawnTV r (tvs s)); exact H.
  - unfold autoHide. destruct (gameState s); [exact H| |exact H].
    destruct (checkTvs rng 0 (tvs s)). exact H.
  - unfold strike, smashTV. destruct (gameState s); [exact H| |exact H].
    fields. apply Forall_app. split; [exact H|].
    repeat constructor.
  - unfold fireTimeout.
    destruct (nth_error (timeouts s) k) as [[d c]|]; [|exact H].
    destruct c; cbn [runCallback]; unfold set_tvs; fields;
      now apply Forall_remove_nth.
Qed.

Lemma reachable_delaysInv s : reachable s -> delaysInv s.
Proof.
  induction 1 as [saved|e s _ IH]; [constructor|now apply step_delaysInv].
Qed.

(** A board on which every slot is hidden, unstruck and without label is
    left as it is by every event but a start or a spawn. *)
Lemma step_fresh_board e s :
  isStart e = false -> isSpawn e = false ->
  tvs s = freshTvs -> tvs (step e s) = freshTvs.
Proof.
  intros Hs Hp Hf. unfold step. rewrite save_tvs.
  destruct e as [| |r|rng|i rect|k]; try discriminate; cbn [handle].
  - unfold gameTimer. destruct (gameState s); try exact Hf.
    destruct (_ <=? _); exact Hf.
  - unfold autoHide. destruct (gameState s); try exact Hf.
    rewrite Hf. reflexivity.
  - unfold strike, smashTV. destruct (gameState s); try exact Hf.
    fields. rewrite Hf. unfold smashUpdater.
    destruct (find _ freshTvs) as [tv|] eqn:E; [|reflexivity].
    apply find_some in E as [Hin _].
    rewrite (freshTvs_slots tv Hin). reflexivity.
  - unfold fireTimeout.
    destruct (nth_error (timeouts s) k) as [[d c]|]; [|exact Hf].
    destruct c as [sid|i]; cbn [runCallback]; unfold set_tvs; fields;
      [exact Hf|].
    rewrite Hf. apply conceal_fresh. intros t Hin Hid.
    rewrite (freshTvs_slots t Hin). now rewrite Hid.
Qed.

Lemma run_fresh_board evs s :
  noStart evs = true -> noSpawn evs = true ->
  tvs s = freshTvs -> tvs (run evs s) = freshTvs.
Proof.
  unfold noStart, noSpawn. revert s.
  induction evs as [|e evs IH]; intros s Hs Hp Hf; [exact Hf|].
  cbn [forallb] in Hs, Hp.
  apply andb_true_iff in Hs as [Hs Hs']. apply negb_true_iff in Hs.
  apply andb_true_iff in Hp as [Hp Hp']. apply negb_true_iff in Hp.
  rewrite run_cons. apply IH; auto. now apply step_fresh_board.
Qed.

(** C2 fails on the code: nothing cancels the reversion that a strike
    schedules.  A slot is revealed and struck in the last second of a
    round; after the tick that ends the round the reversion is still
    scheduled, and when it fires, in phase ended, it hides the slot.  When
    the next round is started first, the reversion is still scheduled in
    that round and fires there. *)
Lemma stale_reversion_counterexample :
  let round1 :=
    run (repeat Tick 29 ++ [Spawn 0; Strike 0 rect0; Tick])
        (step Start (initial None)) in
  let round2 := step Start round1 in
  gameState round1 = ended /\
  timeouts round1 = [(500, RemoveSparkle 0); (300, HideTV 0)] /\
  slot 0 round1 = Some (mkTV 0 true true true) /\
  slot 0 (step (Timeout 1) round1) = Some (mkTV 0 false false false) /\
  gameState round2 = playing /\
  timeouts round2 = [(500, RemoveSparkle 0); (300, HideTV 0)] /\
  timeouts (step (Timeout 1) round2) = [(500, RemoveSparkle 0)].
Proof.
  vm_compute. repeat (split; [reflexivity|]). reflexivity.
Qed.

(** C2 (amended): nothing cancels a scheduled timeout, yet a reversion
    left over from an earlier round does not change the slots of the next
    one.  The start action and the clock tick, the last one of a round
    included, leave the schedule as it is.  Each scheduled delay is 300 ms
    (reversion) or 500 ms (sparkle removal), shorter than the 1200 ms base
    delay of the spawn interval at the start of a round.  A reversion of
    slot [i] that fires leaves the schedule and sets every slot with id [i]
    to hidden, unstruck, without score display, all other slots untouched.
    And in a round that has been started and has not yet had a spawn, the
    board is the fresh board whatever else happened, and any timeout that
    fires there, left over or not, leaves it unchanged. *)
Theorem timeouts_survive_round_change s :
  reachable s ->
  timeouts (step Start s) = timeouts s /\
  timeouts (step Tick s) = timeouts s /\
  (forall d c, In (d, c) (timeouts s) ->
     (d = 300 \/ d = 500) /\ d < baseInterval 30) /\
  (forall k d i,
     nth_error (timeouts s) k = Some (d, HideTV i) ->
     d = 300 /\
     timeouts (step (Timeout k) s) = remove_nth k (timeouts s) /\
     tvs (step (Timeout k) s) =
       map (fun t => if id t =? i then conceal t else t) (tvs s)) /\
  (forall evs,
     noStart evs = true -> noSpawn evs = true ->
     let s' := run evs (step Start s) in
     tvs s' = freshTvs /\
     forall k, tvs (step (Timeout k) s') = tvs s').
Proof.
  intros Hr. pose proof (reachable_delaysInv s Hr) as Hd.
  unfold delaysInv in Hd. rewrite Forall_forall in Hd.
  assert (Hstart : timeouts (step Start s) = timeouts s).
  { unfold step. now rewrite save_timeouts. }
  split; [exact Hstart|]. split; [|split; [|split]].
  - unfold step. rewrite save_timeouts.
    unfold handle, gameTimer. destruct (gameState s); try reflexivity.
    now destruct (_ <=? _).
  - intros d c Hin. specialize (Hd (d, c) Hin). cbn [fst snd] in Hd.
    change (baseInterval 30) with 1200. destruct c; lia.
  - intros k d i Hk.
    pose proof (Hd (d, HideTV i) (nth_error_In _ _ Hk)) as Hd'.
    cbn [fst snd] in Hd'. split; [exact Hd'|].
    unfold step. rewrite save_timeouts, save_tvs.
    unfold handle, fireTimeout. rewrite Hk. fields. now split.
  - intros evs Hns Hnp. cbv zeta.
    assert (Hf : tvs (step Start s) = freshTvs).
    { unfold step. now rewrite save_tvs. }
    pose proof (run_fresh_board evs (step Start s) Hns Hnp Hf) as Hf'.
    split; [exact Hf'|].
    intros k. rewrite Hf'. now apply step_fresh_board.
Qed.

Lemma timeouts_survive_round_change_witness :
  let round1 :=
    run (repeat Tick 29 ++ [Spawn 0; Strike 0 rect0; Tick])
        (step Start (initial None)) in
  let round2 := run [Escape lowDraw] (step Start round1) in
  timeouts (step Start round1) = timeouts round1 /\
  nth_error (timeouts round2) 1 = Some (300, HideTV 0) /\
  tvs round2 = freshTvs /\
  tvs (step (Timeout 1) round2) = tvs round2.
Proof.
  cbv zeta.
  set (round1 := run (repeat Tick 29 ++ [Spawn 0; Strike 0 rect0; Tick])
                     (step Start (initial None))).
  assert (Hr : reachable round1).
  { apply reachable_run. apply reach_step. apply reach_initial. }
  destruct (timeouts_survive_round_change round1 Hr)
    as (H1 & _ & _ & _ & H5).
  destruct (H5 [Escape lowDraw] eq_refl eq_refl) as (F1 & F3).
  split; [exact H1|]. split; [reflexivity|]. split; [exact F1|apply F3].
Defined.

(** * Further properties of the component *)

(** ** Spawn delay *)

(** The base of the spawn delay, [Math.max(400, 1200 - (30 - timeLeft) *
    30)], for a clock value of a round: it lies between 400 and 1200 ms, is
    [300 + 30 * timeLeft] from 4 s up and 400 from 3 s down, is at least
    the 1000 ms of the game timer exactly while 24 s or more are left, and
    never grows as the clock runs down. *)
Theorem spawn_interval_ramp t :
  0 <= t <= 30 ->
  400 <= baseInterval t <= 1200 /\
  (4 <= t -> baseInterval t = 300 + 30 * t) /\
  (t <= 3 <-> baseInterval t = 400) /\
  (24 <= t <-> 1000 <= baseInterval t) /\
  (forall t', t' <= t -> baseInterval t' <= baseInterval t).
Proof.
  intros Ht. unfold baseInterval. repeat split; intros; lia.
Qed.

Lemma spawn_interval_ramp_witness :
  400 <= baseInterval 20 <= 1200 /\
  (4 <= 20 -> baseInterval 20 = 300 + 30 * 20) /\
  (20 <= 3 <-> baseInterval 20 = 400) /\
  (24 <= 20 <-> 1000 <= baseInterval 20) /\
  (forall t', t' <= 20 -> baseInterval t' <= baseInterval 20).
Proof.
  apply (spawn_interval_ramp 20). lia.
Defined.

(** ** Counters *)


Lemma save_countersInv s : countersInv s -> countersInv (saveHighScore s).
Proof.
  unfold countersInv.
  now rewrite save_combo, save_score, save_missedCount, save_timeLeft,
    save_gameState.
Qed.

Lemma handle_countersInv e s : countersInv s -> countersInv (handle e s).
Proof.
  intros H. pose proof H as (Hc & Hs & Hd & Hm & Ht & Hp & He).
  destruct e as [| |r|rng|i rect|k]; cbn [handle].
  - unfold countersInv, startGame. fields.
    repeat split; try lia; try discriminate. exists 0. reflexivity.
  - unfold gameTimer. destruct (gameState s) eqn:Hg;
      [exact H| |exact H].
    unfold countersInv.
    destruct (timeLeft s <=? 1) eqn:Hle; fields.
    + repeat split; auto; try lia; discriminate.
    + apply Z.leb_gt in Hle. repeat split; auto; try lia. congruence.
  - unfold spawner. destruct (gameState s) eqn:Hg; [exact H| |exact H].
    destruct (spawnTV r (tvs s)); exact H.
  - unfold countersInv.
    destruct (autoHide_fields rng s)
      as (_ & _ & Hmi & Hco & Hsc & _ & Hti & Hgs & _).
    rewrite Hmi, Hco, Hsc, Hti, Hgs.
    assert (0 <= (if isPlaying s then escapeCount rng 0 (tvs s) else 0)).
    { destruct (isPlaying s); [apply escapeCount_nonneg|lia]. }
    repeat split; auto; try lia.
    destruct (_ =? 0); lia.
  - unfold strike, smashTV. destruct (gameState s) eqn:Hg;
      [exact H| |exact H].
    unfold countersInv. fields. repeat split; auto; try lia.
    apply Z.divide_add_r; [exact Hd|]. apply Z.divide_factor_l.
  - unfold fireTimeout. destruct (nth_error _ k) as [[d c]|]; [|exact H].
    destruct c; exact H.
Qed.

Lemma step_countersInv e s : countersInv s -> countersInv (step e s).
Proof. intros H. apply save_countersInv. now apply handle_countersInv. Qed.

Lemma reachable_countersInv s : reachable s -> countersInv s.
Proof.
  induction 1 as [saved|e s _ IH].
  - unfold countersInv. simpl. repeat split; try lia; try discriminate.
    exists 0. reflexivity.
  - now apply step_countersInv.
Qed.

(** In every reachable state combo, score and missedCount are not negative,
    the score is a multiple of 100, timeLeft is between 0 and 30, at least
    1 while playing and 0 once the round has ended; so the game-over line
    "TVs Smashed" is exactly [score / 100]. *)
Theorem counters_in_range s :
  reachable s ->
  0 <= combo s /\ 0 <= score s /\ 0 <= missedCount s /\
  0 <= timeLeft s <= 30 /\
  (gameState s = playing -> 1 <= timeLeft s) /\
  (gameState s = ended -> timeLeft s = 0) /\
  score s = 100 * tvsSmashed s /\ 0 <= tvsSmashed s.
Proof.
  intros Hr.
  destruct (reachable_countersInv s Hr) as (Hc & Hs & Hd & Hm & Ht & Hp & He).
  repeat split; auto; try lia.
  - unfold tvsSmashed. destruct Hd as [q Hq]. rewrite Hq.
    rewrite Z.div_mul by lia. lia.
  - unfold tvsSmashed. apply Z.div_pos; lia.
Qed.

Lemma counters_in_range_witness :
  let s := run [Spawn 0; Strike 0 rect0; Spawn 0; Strike 1 rect0; Tick]
               (step Start (initial None)) in
  0 <= combo s /\ 0 <= score s /\ 0 <= missedCount s /\
  0 <= timeLeft s <= 30 /\
  (gameState s = playing -> 1 <= timeLeft s) /\
  (gameState s = ended -> timeLeft s = 0) /\
  score s = 100 * tvsSmashed s /\ 0 <= tvsSmashed s.
Proof.
  apply counters_in_range. apply reachable_run.
  apply reach_step. apply reach_initial.
Defined.

(** ** Best score and storage *)

Lemma StronglySorted_snoc l x :
  StronglySorted Z.lt l -> Forall (fun v => v < x) l ->
  StronglySorted Z.lt (l ++ [x]).
Proof.
  induction 1 as [|a l Hs IH Ha]; intros Hx; simpl.
  - repeat constructor.
  - inversion Hx as [|? ? Hax Hlx]; subst. constructor; [now apply IH|].
    apply Forall_app. split; [exact Ha|]. now repeat constructor.
Qed.

Lemma handle_highScore e s :
  highScore (handle e s) = highScore s /\
  localStorage (handle e s) = localStorage s.
Proof.
  destruct e; [now split|..];
    match goal with
    | |- context [handle ?e s] =>
        destruct (handle_frame e s eq_refl) as (H1 & H2 & _); now split
    end.
Qed.

Lemma step_storageInv h0 e s : storageInv h0 s -> storageInv h0 (step e s).
Proof.
  intros (Hl & Hs & Hf & Hh & He).
  destruct (handle_highScore e s) as [Eh El].
  unfold step, storageInv, saveHighScore.
  destruct (gameState (handle e s)) eqn:Hg;
    try (rewrite Eh, El; repeat split; auto; congruence).
  destruct (highScore (handle e s) <? score (handle e s)) eqn:Hlt.
  - apply Z.ltb_lt in Hlt. fields. rewrite El, last_last.
    rewrite Eh in Hlt. repeat split; try lia.
    + apply StronglySorted_snoc; [exact Hs|].
      eapply Forall_impl; [|exact Hf]. intros v Hv. simpl in Hv. lia.
    + apply Forall_app. split.
      * eapply Forall_impl; [|exact Hf]. intros v Hv. simpl in Hv. lia.
      * repeat constructor; lia.
  - apply Z.ltb_ge in Hlt. rewrite Eh, El. rewrite Eh in Hlt.
    repeat split; auto.
Qed.

(** A session starts in a state whose storage log is empty and whose best
    score is the integer [h0] (after a round, not below the score).  After
    any events the best score in memory is the last value written to
    storage, or [h0] when nothing was written; the values written grow
    strictly and all exceed [h0]; the best score never falls below [h0];
    and on the game-over screen the score never exceeds the best score. *)
Theorem best_score_mirrors_storage s0 evs :
  localStorage s0 = [] ->
  (gameState s0 = ended -> score s0 <= highScore s0) ->
  let s := run evs s0 in
  let h0 := highScore s0 in
  highScore s = last (localStorage s) h0 /\
  StronglySorted Z.lt (localStorage s) /\
  Forall (fun v => h0 < v <= highScore s) (localStorage s) /\
  h0 <= highScore s /\
  (gameState s = ended -> score s <= highScore s).
Proof.
  intros Hl0 He0. cbv zeta.
  assert (H : storageInv (highScore s0) (run evs s0)).
  { induction evs as [|e evs IH] using rev_ind.
    - unfold storageInv. cbn [run fold_left]. rewrite Hl0.
      repeat split; auto; try lia; constructor.
    - rewrite run_app. cbn [run fold_left]. now apply step_storageInv. }
  exact H.
Qed.

Lemma best_score_mirrors_storage_witness :
  let s0 := initial (Some 150) in
  let evs := [Start; Spawn 0; Strike 0 rect0] ++ repeat Tick 30 ++
             [Start; Spawn 0; Strike 0 rect0; Spawn 0; Strike 1 rect0] ++
             repeat Tick 30 in
  let s := run evs s0 in
  localStorage s = [300] /\
  highScore s = last (localStorage s) 150 /\
  StronglySorted Z.lt (localStorage s) /\
  Forall (fun v => 150 < v <= highScore s) (localStorage s) /\
  150 <= highScore s /\
  (gameState s = ended -> score s <= highScore s).
Proof.
  split; [reflexivity|].
  apply (best_score_mirrors_storage (initial (Some 150))
           ([Start; Spawn 0; Strike 0 rect0] ++ repeat Tick 30 ++
            [Start; Spawn 0; Strike 0 rect0; Spawn 0; Strike 1 rect0] ++
            repeat Tick 30)).
  - reflexivity.
  - discriminate.
Defined.

(** ** The game-over screen *)

(** After a round that started from [s0] has ended, the NEW HIGH SCORE
    banner is shown exactly when the final score is positive and more than
    half of the best score before the round: for every positive new record,
    and also for scores that did not beat the record. *)
Theorem banner_condition evs s0 :
  noStart evs = true ->
  let s := run evs (step Start s0) in
  gameState s = ended ->
  (newHighScoreBanner s = true <->
   0 < score s /\ highScore s0 < 2 * score s) /\
  (highScore s0 < score s -> 0 < score s -> newHighScoreBanner s = true).
Proof.
  intros Hns. cbv zeta. intros Hg.
  destruct (round_trace evs s0 Hns) as [_ Hcase]. cbv zeta in Hcase.
  destruct (_ <? 30); destruct Hcase as (Hg' & Hh & _); [congruence|].
  unfold newHighScoreBanner. rewrite Hh.
  rewrite andb_true_iff, !Z.ltb_lt. split; lia.
Qed.

Lemma banner_condition_witness :
  let s := run ([Spawn 0; Strike 0 rect0; Spawn 0; Strike 1 rect0]
                  ++ repeat Tick 30)
               (step Start (initial (Some 500))) in
  score s = 300 /\ highScore s = 500 /\ newHighScoreBanner s = true /\
  (newHighScoreBanner s = true <->
   0 < score s /\ highScore (initial (Some 500)) < 2 * score s).
Proof.
  split; [reflexivity|]. split; [reflexivity|]. split; [reflexivity|].
  apply (banner_condition
           ([Spawn 0; Strike 0 rect0; Spawn 0; Strike 1 rect0]
              ++ repeat Tick 30)
           (initial (Some 500))); reflexivity.
Defined.

Lemma committed_ended s :
  saveHighScore s = s -> gameState s = ended -> score s <= highScore s.
Proof.
  intros Hc Hg. unfold saveHighScore in Hc. rewrite Hg in Hc.
  destruct (highScore s <? score s) eqn:Hlt; [|now apply Z.ltb_ge].
  apply (f_equal highScore) in Hc. cbn [highScore] in Hc.
  apply Z.ltb_lt in Hlt. lia.
Qed.

Lemma step_ended_rest e s :
  isStart e = false -> gameState s = ended ->
  combo (step e s) = combo s /\ missedCount (step e s) = missedCount s.
Proof.
  intros He Hg. unfold step. rewrite save_combo, save_missedCount.
  destruct e as [| |r|rng|i rect|k]; try discriminate; cbn [handle].
  - unfold gameTimer. now rewrite Hg.
  - unfold spawner. now rewrite Hg.
  - unfold autoHide. now rewrite Hg.
  - unfold strike, smashTV. now rewrite Hg.
  - unfold fireTimeout. destruct (nth_error _ k) as [[d c]|]; [|now split].
    destruct c; now split.
Qed.

Lemma step_ended_frozen e s :
  reachable s -> gameState s = ended ->
  isStart e = false -> isTimeout e = false -> step e s = s.
Proof.
  intros Hr Hg Hs Ht.
  assert (E : handle e s = s).
  { destruct e as [| |r|rng|i rect|k]; try discriminate; cbn [handle].
    - unfold gameTimer. now rewrite Hg.
    - unfold spawner. now rewrite Hg.
    - unfold autoHide. now rewrite Hg.
    - unfold strike, smashTV. now rewrite Hg. }
  unfold step. rewrite E. now apply reachable_committed.
Qed.

Lemma settles_refl l : Forall2 settles l l.
Proof. induction l; constructor; auto. now left. Qed.

Lemma settles_trans l1 l2 l3 :
  Forall2 settles l1 l2 -> Forall2 settles l2 l3 -> Forall2 settles l1 l3.
Proof.
  intros H. revert l3. induction H as [|a b l1 l2 Hab Hl IH]; intros l3 H3.
  - inversion H3. constructor.
  - inversion H3 as [|? c ? l3' Hbc H3']; subst. constructor; [|now apply IH].
    destruct Hab as [-> | ->]; [exact Hbc|].
    destruct Hbc as [-> | ->]; right; reflexivity.
Qed.

Lemma settles_conceal i l :
  Forall2 settles l (map (fun t => if id t =? i then conceal t else t) l).
Proof.
  induction l as [|t l IH]; simpl; constructor; auto.
  destruct (id t =? i); [now right|now left].
Qed.

Lemma length_remove_nth {A} (l : list A) :
  forall k, (length (remove_nth k l) <= length l)%nat.
Proof.
  induction l as [|a l IH]; intros k; destruct k; simpl; auto.
  specialize (IH k). lia.
Qed.

(** What a firing timeout can do, in any state: it can only set slots to
    hidden and unstruck, remove sparkles, and shorten the schedule. *)
Lemma step_timeout_effect k s :
  Forall2 settles (tvs s) (tvs (step (Timeout k) s)) /\
  incl (sparkles (step (Timeout k) s)) (sparkles s) /\
  (length (timeouts (step (Timeout k) s)) <= length (timeouts s))%nat.
Proof.
  unfold step. rewrite save_tvs, save_sparkles, save_timeouts.
  cbn [handle]. unfold fireTimeout.
  destruct (nth_error (timeouts s) k) as [[d c]|].
  - destruct c as [sid|i]; cbn [runCallback]; unfold set_tvs; fields.
    + split; [apply settles_refl|]. split; [|apply length_remove_nth].
      intros sp Hsp. now apply filter_In in Hsp as [Hsp _].
    + split; [apply settles_conceal|].
      split; [apply incl_refl|apply length_remove_nth].
  - split; [apply settles_refl|]. split; [apply incl_refl|lia].
Qed.

(** Once a round has ended, nothing but a new start changes what the
    game-over screen shows: phase, score, best score, missedCount, combo,
    timeLeft and the storage stay as they are under any further timer
    ticks, spawn or auto-hide firings, strikes and timeouts.  Without a
    timeout firing the whole state stays as it is; timeouts that fire can
    only set slots to hidden and unstruck, remove sparkles and shorten the
    schedule. *)
Theorem game_over_is_stable evs s :
  reachable s -> gameState s = ended -> noStart evs = true ->
  let s' := run evs s in
  gameState s' = ended /\ score s' = score s /\
  highScore s' = highScore s /\ missedCount s' = missedCount s /\
  combo s' = combo s /\ timeLeft s' = timeLeft s /\
  localStorage s' = localStorage s /\
  newHighScoreBanner s' = newHighScoreBanner s /\
  tvsSmashed s' = tvsSmashed s /\
  (noTimeout evs = true -> s' = s) /\
  Forall2 settles (tvs s) (tvs s') /\
  incl (sparkles s') (sparkles s) /\
  (length (timeouts s') <= length (timeouts s))%nat.
Proof.
  intros Hr Hg Hns. cbv zeta.
  pose proof (committed_ended s (reachable_committed s Hr) Hg) as Hle.
  assert (H : gameState (run evs s) = ended /\
              score (run evs s) = score s /\
              highScore (run evs s) = highScore s /\
              missedCount (run evs s) = missedCount s /\
              combo (run evs s) = combo s /\
              timeLeft (run evs s) = timeLeft s /\
              localStorage (run evs s) = localStorage s /\
              (noTimeout evs = true -> run evs s = s) /\
              Forall2 settles (tvs s) (tvs (run evs s)) /\
              incl (sparkles (run evs s)) (sparkles s) /\
              (length (timeouts (run evs s)) <= length (timeouts s))%nat).
  { induction evs as [|e evs IH] using rev_ind.
    - repeat split; auto; [apply settles_refl|apply incl_refl].
    - rewrite noStart_app in Hns. apply andb_true_iff in Hns as [Hns He].
      unfold noStart in He. cbn [forallb] in He. rewrite andb_true_r in He.
      apply negb_true_iff in He.
      destruct (IH Hns) as (I1 & I2 & I3 & I4 & I5 & I6 & I7 & I8 & I9 & I10 & I11).
      rewrite run_app. cbn [run fold_left]. fold (run evs s).
      assert (Hle' : score (run evs s) <= highScore (run evs s)) by lia.
      destruct (step_ended e _ He I1 Hle') as (T1 & T2 & T3 & T4 & T5).
      destruct (step_ended_rest e _ He I1) as (T6 & T7).
      assert (Hr' : reachable (run evs s)) by now apply reachable_run.
      assert (Hrest :
        Forall2 settles (tvs (run evs s)) (tvs (step e (run evs s))) /\
        incl (sparkles (step e (run evs s))) (sparkles (run evs s)) /\
        (length (timeouts (step e (run evs s)))
           <= length (timeouts (run evs s)))%nat).
      { destruct (isTimeout e) eqn:Hte.
        - destruct e; try discriminate. apply step_timeout_effect.
        - rewrite (step_ended_frozen e _ Hr' I1 He Hte).
          split; [apply settles_refl|]. split; [apply incl_refl|lia]. }
      destruct Hrest as (R1 & R2 & R3).
      repeat split; try congruence.
      + intros Hnt. unfold noTimeout in Hnt. rewrite forallb_app in Hnt.
        apply andb_true_iff in Hnt as [Hnt Hte]. cbn [forallb] in Hte.
        rewrite andb_true_r in Hte. apply negb_true_iff in Hte.
        rewrite (step_ended_frozen e _ Hr' I1 He Hte). now apply I8.
      + eapply settles_trans; eauto.
      + eapply incl_tran; eauto.
      + lia. }
  destruct H as (I1 & I2 & I3 & I4 & I5 & I6 & I7 & I8 & I9 & I10 & I11).
  unfold newHighScoreBanner, tvsSmashed. rewrite I2, I3.
  repeat split; auto.
Qed.

Lemma game_over_is_stable_witness :
  let s := run ([Spawn 0; Strike 0 rect0] ++ repeat Tick 30)
               (step Start (initial None)) in
  let s' := run [Tick; Spawn 0; Escape lowDraw; Strike 0 rect0;
                 Timeout 1; Timeout 0] s in
  score s = 100 /\ tvs s' <> tvs s /\
  gameState s' = ended /\ score s' = score s /\
  highScore s' = highScore s /\ missedCount s' = missedCount s /\
  combo s' = combo s /\ timeLeft s' = timeLeft s /\
  localStorage s' = localStorage s /\
  newHighScoreBanner s' = newHighScoreBanner s /\
  tvsSmashed s' = tvsSmashed s /\
  (noTimeout [Tick; Spawn 0; Escape lowDraw; Strike 0 rect0;
              Timeout 1; Timeout 0] = true -> s' = s) /\
  Forall2 settles (tvs s) (tvs s') /\
  incl (sparkles s') (sparkles s) /\
  (length (timeouts s') <= length (timeouts s))%nat.
Proof.
  split; [reflexivity|]. split; [vm_compute; discriminate|].
  apply (game_over_is_stable
           [Tick; Spawn 0; Escape lowDraw; Strike 0 rect0;
            Timeout 1; Timeout 0]
           (run ([Spawn 0; Strike 0 rect0] ++ repeat Tick 30)
                (step Start (initial None)))).
  - apply reachable_run. apply reach_step. apply reach_initial.
  - reflexivity.
  - reflexivity.
Defined.

(** ** Score and strikes *)

Lemma step_score e s :
  isStart e = false ->
  score (step e s) =
  score s + (if isStrike e && isPlaying s
             then strikePoints (combo s + 1) else 0) /\
  (0 <= combo s -> 0 <= combo (step e s)).
Proof.
  intros He. unfold step. rewrite save_score, save_combo.
  destruct e as [| |r|rng|i rect|k]; try discriminate; cbn [handle isStrike andb].
  - unfold gameTimer. destruct (gameState s); [split; auto; lia| |split; auto; lia].
    destruct (_ <=? _); fields; split; auto; lia.
  - unfold spawner. destruct (gameState s); [split; auto; lia| |split; auto; lia].
    destruct (spawnTV r (tvs s)); split; auto; cbn; lia.
  - destruct (autoHide_fields rng s) as (_ & _ & _ & Hco & Hsc & _).
    rewrite Hco, Hsc. split; [lia|]. destruct (_ =? 0); lia.
  - unfold strike, smashTV, isPlaying.
    destruct (gameState s); cbn [GameState_eqb]; fields; split; auto; lia.
  - unfold fireTimeout. destruct (nth_error _ k) as [[d c]|];
      [destruct c|]; split; auto; cbn; lia.
Qed.

(** In a round (a start, then any events but a new start) every strike that
    [smashTV] handles adds between 100 and 500 points and nothing else
    changes the score: with [n] handled strikes the score lies between
    [100 * n] and [500 * n], and the game-over line "TVs Smashed", which
    divides the score by 100, lies between [n] and [5 * n]. *)
Theorem score_bounds evs s0 :
  noStart evs = true ->
  let s := run evs (step Start s0) in
  let n := strikesHandled evs (step Start s0) in
  0 <= n /\ 100 * n <= score s <= 500 * n /\
  n <= tvsSmashed s <= 5 * n.
Proof.
  intros Hns. cbv zeta.
  assert (H : forall s, 0 <= combo s ->
            0 <= strikesHandled evs s /\
            score s + 100 * strikesHandled evs s <= score (run evs s)
              <= score s + 500 * strikesHandled evs s).
  { revert Hns. unfold noStart.
    induction evs as [|e evs IH]; intros Hns s Hc; cbn [forallb] in Hns.
    - simpl. lia.
    - apply andb_true_iff in Hns as [He Hns]. apply negb_true_iff in He.
      destruct (step_score e s He) as [Hs Hc'].
      destruct (IH Hns (step e s) (Hc' Hc)) as (I0 & I1 & I2).
      rewrite run_cons. cbn [strikesHandled]. rewrite Hs in I1, I2.
      destruct (isStrike e && isPlaying s); [|lia].
      unfold strikePoints in *. lia. }
  destruct (H (step Start s0)) as (H0 & H1 & H2); [cbn; lia|].
  change (score (step Start s0)) with 0 in H1, H2.
  split; [exact H0|]. split; [lia|].
  unfold tvsSmashed. split.
  - apply Z.div_le_lower_bound; lia.
  - apply Z.div_le_upper_bound; lia.
Qed.

Lemma score_bounds_witness :
  let evs := [Spawn 0; Strike 0 rect0; Spawn 0; Strike 1 rect0;
              Strike 7 rect0] ++ repeat Tick 30 ++ [Strike 0 rect0] in
  let s := run evs (step Start (initial None)) in
  strikesHandled evs (step Start (initial None)) = 3 /\
  score s = 600 /\ tvsSmashed s = 6 /\
  100 * 3 <= score s <= 500 * 3.
Proof.
  split; [reflexivity|]. split; [reflexivity|]. split; [reflexivity|].
  pose proof (score_bounds
    ([Spawn 0; Strike 0 rect0; Spawn 0; Strike 1 rect0; Strike 7 rect0]
       ++ repeat Tick 30 ++ [Strike 0 rect0])
    (initial None) eq_refl) as H.
  cbv zeta in H. destruct H as (_ & H & _). exact H.
Defined.

(** Two strikes handled by the handler of one and the same render (the
    closure holds the same [combo] for both) advance the combo by one, not
    two, and both are paid at the same multiplier. *)
Theorem same_render_strikes_share_combo c i j rect rect' s :
  let s' := smashTV playing c j rect' (smashTV playing c i rect s) in
  combo s' = c + 1 /\
  score s' = score s + 2 * (100 * Z.min (c + 1) 5) /\
  length (sparkles s') = S (S (length (sparkles s))) /\
  sparkleIdRef s' = sparkleIdRef s + 2.
Proof.
  cbv zeta. unfold smashTV. fields.
  repeat split; try lia. rewrite !length_app. simpl. lia.
Qed.

(** A strike followed by the firing of the reversion it scheduled leaves
    the board as it was before the strike except that every slot with the
    struck id is hidden, unstruck and without score display. *)
Theorem strike_then_reversion i rect s :
  gameState s = playing ->
  let s1 := step (Strike i rect) s in
  let k := S (length (timeouts s)) in
  nth_error (timeouts s1) k = Some (300, HideTV i) /\
  tvs (step (Timeout k) s1) =
    map (fun t => if id t =? i then conceal t else t) (tvs s) /\
  score (step (Timeout k) s1) = score s1 /\
  combo (step (Timeout k) s1) = combo s1.
Proof.
  intros Hg. cbv zeta.
  assert (E : step (Strike i rect) s = strike i rect s).
  { unfold step. apply save_playing. cbn [handle].
    unfold strike, smashTV. now rewrite Hg. }
  rewrite E.
  assert (Hk : nth_error (timeouts (strike i rect s)) (S (length (timeouts s)))
               = Some (300, HideTV i)).
  { unfold strike, smashTV. rewrite Hg. fields.
    rewrite nth_error_app2 by lia.
    replace (S (length (timeouts s)) - length (timeouts s))%nat with 1%nat
      by lia. reflexivity. }
  split; [exact Hk|].
  unfold step. rewrite save_tvs, save_score, save_combo. cbn [handle].
  unfold fireTimeout. rewrite Hk. cbn [runCallback]. unfold set_tvs. fields.
  split; [|split; reflexivity].
  unfold strike, smashTV. rewrite Hg. fields.
  unfold smashUpdater.
  destruct (find _ (tvs s)) as [tv|]; [|reflexivity].
  destruct (_ || _); [reflexivity|].
  rewrite map_map. apply map_ext. intros t.
  destruct (id t =? i) eqn:Hi; cbn [smash id]; now rewrite Hi.
Qed.

Lemma strike_then_reversion_witness :
  let s := step (Spawn 0) (step (Spawn 0) (step Start (initial None))) in
  let s1 := step (Strike 1 rect0) s in
  slot 1 s = Some (mkTV 1 true false false) /\
  slot 1 s1 = Some (mkTV 1 true true true) /\
  nth_error (timeouts s1) 1 = Some (300, HideTV 1) /\
  slot 1 (step (Timeout 1) s1) = Some (mkTV 1 false false false) /\
  slot 0 (step (Timeout 1) s1) = Some (mkTV 0 true false false).
Proof.
  split; [reflexivity|]. split; [reflexivity|].
  destruct (strike_then_reversion 1 rect0
              (step (Spawn 0) (step (Spawn 0) (step Start (initial None))))
              eq_refl) as (H1 & H2 & _).
  split; [exact H1|]. unfold slot. cbv zeta in H2.
  change (S (length (timeouts
    (step (Spawn 0) (step (Spawn 0) (step Start (initial None)))))))
    with 1%nat in H2.
  rewrite H2. split; reflexivity.
Defined.

(** ** Phases *)

Lemma step_gameState e s :
  gameState (step e s) =
  match e with
  | Start => playing
  | Tick =>
      match gameState s with
      | playing => if timeLeft s <=? 1 then ended else playing
      | g => g
      end
  | _ => gameState s
  end.
Proof.
  unfold step. rewrite save_gameState.
  destruct e as [| |r|rng|i rect|k]; cbn [handle].
  - reflexivity.
  - unfold gameTimer. destruct (gameState s) eqn:Hg; auto.
    destruct (_ <=? _); auto.
  - unfold spawner. destruct (gameState s) eqn:Hg; auto.
    destruct (spawnTV r (tvs s)); auto.
  - apply autoHide_fields.
  - unfold strike, smashTV. destruct (gameState s) eqn:Hg; auto.
  - unfold fireTimeout. destruct (nth_error _ k) as [[d c]|]; auto.
    destruct c; auto.
Qed.

Lemma idle_is_initial s :
  reachable s -> gameState s = idle -> exists saved, s = initial saved.
Proof.
  induction 1 as [saved|e s Hr IH]; intros Hg; [now exists saved|].
  assert (Hs : gameState s = idle).
  { rewrite step_gameState in Hg.
    destruct e; try exact Hg; try discriminate.
    destruct (gameState s); try exact Hg; try discriminate.
    destruct (_ <=? _); discriminate. }
  destruct (IH Hs) as [saved ->]. exists saved.
  destruct e as [| |r|rng|i rect|[|k]]; try reflexivity.
  rewrite step_gameState in Hg. discriminate.
Qed.

(** The phase moves only idle -> playing -> ended -> playing: the start
    action is the only event that leaves idle or ended, the 30th tick the
    only one that leaves playing, and idle is never entered again.  While
    idle the state is the mount state, whatever events arrived. *)
Theorem phase_transitions e s :
  reachable s ->
  (gameState s = idle ->
     (exists saved, s = initial saved) /\
     (isStart e = false -> step e s = s)) /\
  (gameState (step e s) <> gameState s ->
     (isStart e = true /\ gameState s <> playing /\
      gameState (step e s) = playing) \/
     (isTick e = true /\ gameState s = playing /\ timeLeft s = 1 /\
      gameState (step e s) = ended)) /\
  (gameState s <> idle -> gameState (step e s) <> idle).
Proof.
  intros Hr.
  destruct (reachable_countersInv s Hr) as (_ & _ & _ & _ & _ & Hp & _).
  split; [|split].
  - intros Hg. destruct (idle_is_initial s Hr Hg) as [saved ->].
    split; [now exists saved|]. intros He.
    destruct e as [| |r|rng|i rect|[|k]]; try reflexivity. discriminate.
  - rewrite step_gameState. intros Hd.
    destruct e; try congruence.
    + left. destruct (gameState s); try congruence;
        repeat split; try reflexivity; discriminate.
    + right. destruct (gameState s) eqn:Hg; try congruence.
      destruct (timeLeft s <=? 1) eqn:Hle; try congruence.
      apply Z.leb_le in Hle. specialize (Hp eq_refl).
      repeat split; auto. lia.
  - rewrite step_gameState. intros Hg.
    destruct e; try exact Hg; try discriminate.
    destruct (gameState s); try congruence.
    destruct (_ <=? _); discriminate.
Qed.

Lemma phase_transitions_witness :
  let s := run (repeat Tick 29) (step Start (initial None)) in
  gameState s = playing /\ gameState (step Tick s) = ended /\
  ((isStart Tick = true /\ gameState s <> playing /\
    gameState (step Tick s) = playing) \/
   (isTick Tick = true /\ gameState s = playing /\ timeLeft s = 1 /\
    gameState (step Tick s) = ended)).
Proof.
  split; [reflexivity|]. split; [reflexivity|].
  destruct (phase_transitions Tick
              (run (repeat Tick 29) (step Start (initial None))))
    as (_ & H & _).
  - apply reachable_run. apply reach_step. apply reach_initial.
  - apply H. vm_compute. discriminate.
Defined.

(** ** Spawning *)

Lemma nth_error_id_unique l j k t t' :
  NoDup (map id l) ->
  nth_error l j = Some t -> nth_error l k = Some t' -> id t = id t' ->
  j = k.
Proof.
  intros Hnd Hj Hk Hid.
  rewrite NoDup_nth_error in Hnd. apply Hnd.
  - rewrite length_map. apply nth_error_Some. congruence.
  - rewrite !nth_error_map, Hj, Hk. simpl. now rewrite Hid.
Qed.

Lemma update_by_id_nth (f : TVState -> TVState) l k tv :
  NoDup (map id l) -> nth_error l k = Some tv ->
  forall j,
    nth_error (map (fun t => if id t =? id tv then f t else t) l) j =
    if (j =? k)%nat then Some (f tv) else nth_error l j.
Proof.
  intros Hnd Hk j. rewrite nth_error_map.
  destruct (j =? k)%nat eqn:Hjk.
  - apply Nat.eqb_eq in Hjk. subst j. rewrite Hk. simpl.
    now rewrite Z.eqb_refl.
  - apply Nat.eqb_neq in Hjk.
    destruct (nth_error l j) as [t|] eqn:Hj; [|reflexivity]. simpl.
    destruct (id t =? id tv) eqn:Hid; [|reflexivity].
    apply Z.eqb_eq in Hid. exfalso. apply Hjk.
    eapply nth_error_id_unique; eauto.
Qed.

Lemma count_update (p : TVState -> bool) l :
  forall k tv tv' l',
    nth_error l k = Some tv ->
    (forall j, nth_error l' j =
               if (j =? k)%nat then Some tv' else nth_error l j) ->
    p tv = true -> p tv' = false ->
    S (length (filter p l')) = length (filter p l).
Proof.
  induction l as [|a l IH]; intros k tv tv' l' Hk Hl' Hp Hp'.
  - destruct k; discriminate.
  - destruct l' as [|a' l'].
    { specialize (Hl' k). rewrite Nat.eqb_refl in Hl'.
      destruct k; discriminate. }
    destruct k as [|k].
    + injection Hk as ->.
      pose proof (Hl' 0%nat) as H0. simpl in H0. injection H0 as ->.
      assert (l' = l).
      { apply nth_error_ext. intros j. exact (Hl' (S j)). }
      subst l'. simpl. now rewrite Hp, Hp'.
    + pose proof (Hl' 0%nat) as H0. simpl in H0. injection H0 as ->.
      simpl in Hk.
      assert (H : S (length (filter p l')) = length (filter p l)).
      { apply (IH k tv tv' l' Hk); auto. intros j. exact (Hl' (S j)). }
      simpl. destruct (p a); simpl; lia.
Qed.

(** One firing of the spawner on a board with distinct ids and a draw in
    [0,1).  With no hidden slot the board is returned unchanged.  Otherwise
    exactly one position changes: it held a hidden, unstruck slot, now
    holds that slot revealed, and the number of hidden slots drops by one;
    revealed and struck slots are never touched. *)
Theorem spawn_reveals_one r l :
  NoDup (map id l) -> (0 <= r)%Q -> (r < 1)%Q ->
  exists l',
    spawnTV r l = Some l' /\ length l' = length l /\
    (filter isHidden l = [] -> l' = l) /\
    (filter isHidden l <> [] ->
     exists k tv,
       nth_error l k = Some tv /\ isHidden tv = true /\
       (forall j, nth_error l' j =
                  if (j =? k)%nat then Some (mkTV (id tv) true false false)
                  else nth_error l j) /\
       S (length (filter isHidden l')) = length (filter isHidden l)).
Proof.
  intros Hnd H0 H1. unfold spawnTV.
  destruct (length (filter isHidden l) =? 0)%nat eqn:E.
  - apply Nat.eqb_eq in E. apply length_zero_iff_nil in E.
    exists l. repeat split; auto. intros Hne. contradiction.
  - apply Nat.eqb_neq in E.
    destruct (random_index_in_range r (length (filter isHidden l)) H0 H1)
      as [Hlo Hhi]; [lia|].
    unfold js_index.
    replace (_ <? 0) with false by (symmetry; apply Z.ltb_ge; exact Hlo).
    destruct (nth_error _ _) as [tv|] eqn:Hn;
      [|apply nth_error_None in Hn; lia].
    eexists. split; [reflexivity|]. split; [apply length_map|].
    split.
    { intros Hnil. rewrite Hnil in E. contradiction. }
    intros _.
    apply nth_error_In in Hn. apply filter_In in Hn as [Hin Hh].
    apply In_nth_error in Hin as [k Hk].
    exists k, tv. split; [exact Hk|]. split; [exact Hh|].
    pose proof (update_by_id_nth reveal l k tv Hnd Hk) as Hupd.
    split; [exact Hupd|].
    eapply count_update; eauto.
Qed.

Lemma spawn_reveals_one_witness :
  exists l',
    spawnTV (1 # 2) freshTvs = Some l' /\ length l' = length freshTvs /\
    (filter isHidden freshTvs = [] -> l' = freshTvs) /\
    (filter isHidden freshTvs <> [] ->
     exists k tv,
       nth_error freshTvs k = Some tv /\ isHidden tv = true /\
       (forall j, nth_error l' j =
                  if (j =? k)%nat then Some (mkTV (id tv) true false false)
                  else nth_error freshTvs j) /\
       S (length (filter isHidden l')) = length (filter isHidden freshTvs)).
Proof.
  apply (spawn_reveals_one (1 # 2) freshTvs).
  - apply freshTvs_NoDup.
  - discriminate.
  - reflexivity.
Defined.

(** ** Sparkles and struck slots *)

Lemma In_remove_nth {A} (l : list A) :
  forall k a b,
    nth_error l k = Some a -> In b l -> b <> a -> In b (remove_nth k l).
Proof.
  induction l as [|x l IH]; intros k a b Hk Hin Hne; [contradiction|].
  destruct k as [|k]; simpl in *.
  - injection Hk as ->. destruct Hin as [->|Hin]; [contradiction|exact Hin].
  - destruct Hin as [->|Hin]; [now left|]. right. eapply IH; eauto.
Qed.

Lemma save_sparklesInv s : sparklesInv s -> sparklesInv (saveHighScore s).
Proof.
  unfold sparklesInv. rewrite save_sparkles, save_timeouts.
  assert (E : sparkleIdRef (saveHighScore s) = sparkleIdRef s)
    by split_save.
  now rewrite E.
Qed.

Lemma handle_sparklesInv e s : sparklesInv s -> sparklesInv (handle e s).
Proof.
  intros H. pose proof H as (Hnd & Hlt & Hin).
  destruct e as [| |r|rng|i rect|k]; cbn [handle].
  - exact H.
  - unfold gameTimer. destruct (gameState s); [exact H| |exact H].
    destruct (_ <=? _); exact H.
  - unfold spawner. destruct (gameState s); [exact H| |exact H].
    destruct (spawnTV r (tvs s)); exact H.
  - unfold autoHide. destruct (gameState s); [exact H| |exact H].
    destruct (checkTvs rng 0 (tvs s)). exact H.
  - unfold strike, smashTV. destruct (gameState s); [exact H| |exact H].
    unfold sparklesInv. fields. split; [|split].
    + rewrite map_app. cbn [map Sparkle.id].
      apply NoDup_app; [exact Hnd|repeat constructor; auto|].
      intros x Hx [<-|[]].
      apply in_map_iff in Hx as (sp & Hid & Hsp).
      rewrite Forall_forall in Hlt. specialize (Hlt sp Hsp). lia.
    + apply Forall_app. split.
      * eapply Forall_impl; [|exact Hlt]. intros sp Hsp. simpl in Hsp. lia.
      * repeat constructor. cbn [Sparkle.id]. lia.
    + apply Forall_app. split.
      * eapply Forall_impl; [|exact Hin]. intros sp Hsp. simpl in Hsp.
        apply in_or_app. now left.
      * repeat constructor. cbn [Sparkle.id]. apply in_or_app. right.
        now left.
  - unfold fireTimeout.
    destruct (nth_error (timeouts s) k) as [[d c]|] eqn:Hk; [|exact H].
    destruct c as [sid|i]; cbn [runCallback]; unfold sparklesInv, set_tvs;
      fields.
    + split; [|split].
      * clear Hlt Hin. induction (sparkles s) as [|sp l IH]; [constructor|].
        inversion Hnd as [|? ? Hni Hnd']; subst. cbn [filter].
        destruct (negb (Sparkle.id sp =? sid)); [|now apply IH].
        cbn [map]. constructor; [|now apply IH].
        intros Hx. apply Hni. apply in_map_iff in Hx as (y & Hy & Hyl).
        apply filter_In in Hyl as [Hyl _]. apply in_map_iff. eauto.
      * rewrite Forall_forall in *. intros sp Hsp.
        apply filter_In in Hsp as [Hsp _]. now apply Hlt.
      * rewrite Forall_forall in *. intros sp Hsp.
        apply filter_In in Hsp as [Hsp Hne].
        apply negb_true_iff, Z.eqb_neq in Hne.
        eapply In_remove_nth; eauto. congruence.
    + split; [exact Hnd|]. split; [exact Hlt|].
      rewrite Forall_forall in *. intros sp Hsp.
      eapply In_remove_nth; eauto. discriminate.
Qed.

(** In every reachable state the sparkles have distinct ids, all below the
    [sparkleIdRef] counter, and each sparkle still has its 500 ms removal
    scheduled; so there are never more sparkles than scheduled timeouts,
    and once no timeout is left no sparkle is left on screen. *)
Theorem sparkles_are_removed s :
  reachable s ->
  NoDup (map Sparkle.id (sparkles s)) /\
  Forall (fun sp => Sparkle.id sp < sparkleIdRef s) (sparkles s) /\
  Forall (fun sp => In (500, RemoveSparkle (Sparkle.id sp)) (timeouts s))
         (sparkles s) /\
  (timeouts s = [] -> sparkles s = []).
Proof.
  intros Hr.
  assert (H : sparklesInv s).
  { induction Hr as [saved|e s _ IH].
    - unfold sparklesInv. simpl. repeat constructor.
    - unfold step. now apply save_sparklesInv, handle_sparklesInv. }
  destruct H as (Hnd & Hlt & Hin).
  split; [exact Hnd|]. split; [exact Hlt|]. split; [exact Hin|].
  intros Ht. destruct (sparkles s) as [|sp l]; [reflexivity|].
  inversion Hin as [|? ? Hsp _]; subst. rewrite Ht in Hsp. contradiction.
Qed.

Lemma sparkles_are_removed_witness :
  let s := run [Spawn 0; Strike 0 rect0; Strike 5 rect0; Timeout 0]
               (step Start (initial None)) in
  map Sparkle.id (sparkles s) = [1] /\
  NoDup (map Sparkle.id (sparkles s)) /\
  Forall (fun sp => Sparkle.id sp < sparkleIdRef s) (sparkles s) /\
  Forall (fun sp => In (500, RemoveSparkle (Sparkle.id sp)) (timeouts s))
         (sparkles s) /\
  (timeouts s = [] -> sparkles s = []).
Proof.
  split; [reflexivity|].
  apply sparkles_are_removed. apply reachable_run.
  apply reach_step. apply reach_initial.
Defined.

Lemma checkTvs_Forall (P : TVState -> Prop) rng l :
  (forall tv, P tv -> P (escape tv)) ->
  forall n, Forall P l -> Forall P (fst (checkTvs rng n l)).
Proof.
  intros Hp. induction l as [|tv l IH]; intros n H; simpl; [constructor|].
  inversion H as [|? ? Htv Hl]; subst.
  destruct (isTarget tv); [destruct (Qltb _ _)|];
    match goal with
    | |- context [checkTvs rng ?m l] =>
        specialize (IH m Hl); destruct (checkTvs rng m l)
    end; simpl in *; constructor; auto.
Qed.

Lemma handle_struckInv e s : struckInv s -> struckInv (handle e s).
Proof.
  intros H.
  destruct e as [| |r|rng|i rect|k]; cbn [handle].
  - unfold struckInv, startGame. fields.
    repeat constructor; discriminate.
  - unfold gameTimer. destruct (gameState s); [exact H| |exact H].
    destruct (_ <=? _); exact H.
  - unfold spawner. destruct (gameState s); [exact H| |exact H].
    destruct (spawnTV r (tvs s)) as [l|] eqn:Hs; [|exact H].
    unfold struckInv, set_tvs. fields. unfold spawnTV in Hs.
    destruct (_ =? _)%nat; [injection Hs as <-; exact H|].
    destruct js_index as [randomTv|]; [|discriminate]. injection Hs as <-.
    apply Forall_map. eapply Forall_impl; [|exact H].
    intros t Ht. cbv beta in *. destruct (id t =? id randomTv); [|exact Ht].
    split; [reflexivity|discriminate].
  - unfold autoHide. destruct (gameState s); [exact H| |exact H].
    pose proof (checkTvs_Forall
      (fun tv => showScore tv = isSmashed tv /\
                 (isSmashed tv = true -> In (300, HideTV (id tv)) (timeouts s)))
      rng (tvs s) (fun tv Htv => Htv) 0%nat H) as Hc.
    destruct (checkTvs rng 0 (tvs s)) as [l m]. exact Hc.
  - unfold strike, smashTV. destruct (gameState s); [exact H| |exact H].
    unfold struckInv. fields. unfold smashUpdater.
    assert (Hold : Forall (fun tv =>
              showScore tv = isSmashed tv /\
              (isSmashed tv = true ->
               In (300, HideTV (id tv))
                  (timeouts s ++
                   [(500, RemoveSparkle (sparkleIdRef s)); (300, HideTV i)])))
              (tvs s)).
    { eapply Forall_impl; [|exact H]. intros t [Ha Hb]. split; [exact Ha|].
      intros Hs. apply in_or_app. left. now apply Hb. }
    destruct (find _ (tvs s)) as [tv|]; [|exact Hold].
    destruct (_ || _); [exact Hold|].
    apply Forall_map. eapply Forall_impl; [|exact Hold].
    intros t Ht. cbv beta in *. destruct (id t =? i) eqn:Hi; [|exact Ht].
    apply Z.eqb_eq in Hi. split; [reflexivity|]. intros _.
    cbn [smash id]. rewrite Hi. apply in_or_app. right. right. now left.
  - unfold fireTimeout.
    destruct (nth_error (timeouts s) k) as [[d c]|] eqn:Hk; [|exact H].
    destruct c as [sid|i]; cbn [runCallback]; unfold struckInv, set_tvs;
      fields.
    + eapply Forall_impl; [|exact H]. intros t [Ha Hb]. split; [exact Ha|].
      intros Hs. eapply In_remove_nth; eauto. discriminate.
    + apply Forall_map. eapply Forall_impl; [|exact H].
      intros t [Ha Hb]. cbv beta. destruct (id t =? i) eqn:Hi.
      * split; [reflexivity|discriminate].
      * split; [exact Ha|]. intros Hs. apply Z.eqb_neq in Hi.
        eapply In_remove_nth; eauto. congruence.
Qed.

(** In every reachable state the "+100" label of a slot is on exactly when
    the slot is struck, and every struck slot still has its 300 ms
    reversion scheduled: no slot stays struck without a timeout pending. *)
Theorem struck_slots_revert s :
  reachable s ->
  Forall (fun tv =>
            showScore tv = isSmashed tv /\
            (isSmashed tv = true -> In (300, HideTV (id tv)) (timeouts s)))
         (tvs s) /\
  (timeouts s = [] ->
   Forall (fun tv => isSmashed tv = false /\ showScore tv = false) (tvs s)).
Proof.
  intros Hr.
  assert (H : struckInv s).
  { induction Hr as [saved|e s _ IH].
    - unfold struckInv. simpl. repeat constructor; discriminate.
    - unfold step, struckInv. rewrite save_tvs, save_timeouts.
      now apply handle_struckInv. }
  split; [exact H|]. intros Ht.
  eapply Forall_impl; [|exact H]. intros t [Ha Hb]. cbv beta.
  rewrite Ht in Hb. destruct (isSmashed t); [destruct (Hb eq_refl)|].
  now split.
Qed.

Lemma struck_slots_revert_witness :
  let s := run [Spawn 0; Strike 0 rect0; Spawn 0; Timeout 0]
               (step Start (initial None)) in
  slot 0 s = Some (mkTV 0 true true true) /\
  timeouts s = [(300, HideTV 0)] /\
  Forall (fun tv =>
            showScore tv = isSmashed tv /\
            (isSmashed tv = true -> In (300, HideTV (id tv)) (timeouts s)))
         (tvs s).
Proof.
  split; [reflexivity|]. split; [reflexivity|].
  apply struck_slots_revert. apply reachable_run.
  apply reach_step. apply reach_initial.
Defined.

(** ** Clicks through GameHole *)




(** ** The board *)

(** In every reachable state the board has exactly nine slots and the
    slot at position [i] has id [i]: the lookup by id that [smashTV]
    performs succeeds exactly for the ids 0 to 8 and returns the slot at
    that position. *)
Theorem board_keeps_nine_slots s :
  reachable s ->
  length (tvs s) = 9%nat /\
  map id (tvs s) = [0; 1; 2; 3; 4; 5; 6; 7; 8] /\
  (forall i, 0 <= i < 9 ->
     exists tv, slot i s = Some tv /\ id tv = i /\
                nth_error (tvs s) (Z.to_nat i) = Some tv) /\
  (forall i, ~ 0 <= i < 9 -> slot i s = None).
Proof.
  intros Hr. destruct (reachable_slotsInv s Hr) as [Hid _].
  change (map id freshTvs) with [0; 1; 2; 3; 4; 5; 6; 7; 8] in Hid.
  split; [now rewrite <- (length_map id), Hid|]. split; [exact Hid|].
  unfold slot.
  destruct (tvs s) as [|t0 [|t1 [|t2 [|t3 [|t4 [|t5 [|t6 [|t7 [|t8 [|t9 l]]]]]]]]]];
    try discriminate.
  injection Hid as H0 H1 H2 H3 H4 H5 H6 H7 H8.
  split.
  - intros i Hi.
    assert (Hc : i = 0 \/ i = 1 \/ i = 2 \/ i = 3 \/ i = 4 \/ i = 5 \/
                 i = 6 \/ i = 7 \/ i = 8) by lia.
    cbn [find]. rewrite H0, H1, H2, H3, H4, H5, H6, H7, H8.
    repeat (destruct Hc as [->|Hc]; [eexists; cbn; eauto|]).
    subst i. eexists; cbn; eauto.
  - intros i Hi. cbn [find]. rewrite H0, H1, H2, H3, H4, H5, H6, H7, H8.
    repeat match goal with
           | |- context [?a =? i] =>
               replace (a =? i) with false by (symmetry; apply Z.eqb_neq; lia)
           end.
    reflexivity.
Qed.

Lemma board_keeps_nine_slots_witness :
  let s := run [Spawn 0; Strike 0 rect0; Escape lowDraw; Spawn (1 # 2)]
               (step Start (initial None)) in
  length (tvs s) = 9%nat /\
  map id (tvs s) = [0; 1; 2; 3; 4; 5; 6; 7; 8] /\
  (forall i, 0 <= i < 9 ->
     exists tv, slot i s = Some tv /\ id tv = i /\
                nth_error (tvs s) (Z.to_nat i) = Some tv) /\
  (forall i, ~ 0 <= i < 9 -> slot i s = None).
Proof.
  apply board_keeps_nine_slots. apply reachable_run.
  apply reach_step. apply reach_initial.
Defined.
